(** * cloudloyalty/db: query formatter and schema migration helper

    A shallow embedding of the Go package [db] (latest revision of the
    query formatter, the literal quoter of its earlier revisions, and
    [migrate.go]) together with the properties its specification states
    about it and further properties of the code.

    Go strings are byte strings: they are modelled by [string], whose
    characters [ascii] are the bytes.  Go [int] and [rune] values are
    modelled by [Z]. *)

From Stdlib Require Import ZArith Zbitwise Ascii String List Bool Lia.
From Stdlib Require Import DecimalString DecimalZ DecimalPos Sorted.
From stdpp Require Import base option gmap strings.

Import ListNotations.
Local Open Scope string_scope.
Local Open Scope Z_scope.

(** ** Bytes and strings *)

Definition rune := Z.

(** [rune(b)], [int(b)] for a byte [b]. *)
Definition byte_val (b : ascii) : Z := Z.of_N (N_of_ascii b).

(** [byte(x)]: conversion to a byte keeps the low eight bits. *)
Definition byte_of (x : Z) : ascii := ascii_of_N (Z.to_N (x mod 256)).

(** [len(s)] *)
Definition len (s : string) : Z := Z.of_nat (String.length s).

(** The first [n] bytes of [s], and [s] without them. *)
Fixpoint take_bytes (n : nat) (s : string) : string :=
  match n, s with
  | S n', String b s' => String b (take_bytes n' s')
  | _, _ => EmptyString
  end.

Fixpoint drop_bytes (n : nat) (s : string) : string :=
  match n, s with
  | S n', String _ s' => drop_bytes n' s'
  | _, _ => s
  end.

(** [s[i]]; Go panics when [i] is out of range, here [None]. *)
Definition byte_at (s : string) (i : Z) : option ascii :=
  if (0 <=? i) && (i <? len s) then String.get (Z.to_nat i) s else None.

(** [s[lo:hi]]; Go panics unless [0 <= lo <= hi <= len(s)], here [None]. *)
Definition slice (s : string) (lo hi : Z) : option string :=
  if (0 <=? lo) && (lo <=? hi) && (hi <=? len s)
  then Some (take_bytes (Z.to_nat (hi - lo)) (drop_bytes (Z.to_nat lo) s))
  else None.

(** [s[:hi]] and [s[lo:]] *)
Definition slice_to (s : string) (hi : Z) : option string := slice s 0 hi.
Definition slice_from (s : string) (lo : Z) : option string := slice s lo (len s).

(** Position of the first byte equal to [c]. *)
Fixpoint find_byte (c : ascii) (s : string) : option nat :=
  match s with
  | EmptyString => None
  | String b s' => if Ascii.eqb b c then Some O else S <$> find_byte c s'
  end.

(** [strings.IndexRune(s, r)] for an ASCII rune [r], which Go computes as
    the index of the first byte equal to [byte(r)], or -1. *)
Definition IndexRune (s : string) (r : ascii) : Z :=
  match find_byte r s with
  | Some i => Z.of_nat i
  | None => -1
  end.

(** ** UTF-8, after package unicode/utf8 *)

Definition RuneError : rune := 0xFFFD.
Definition MaxRune : rune := 0x10FFFF.
Definition surrogateMin : rune := 0xD800.
Definition surrogateMax : rune := 0xDFFF.
Definition rune1Max : rune := 0x7F.
Definition rune2Max : rune := 0x7FF.
Definition rune3Max : rune := 0xFFFF.

Definition tx : Z := 0x80.
Definition t2 : Z := 0xC0.
Definition t3 : Z := 0xE0.
Definition t4 : Z := 0xF0.
Definition maskx : Z := 0x3F.
Definition mask2 : Z := 0x1F.
Definition mask3 : Z := 0x0F.
Definition mask4 : Z := 0x07.
Definition locb : Z := 0x80.
Definition hicb : Z := 0xBF.

(** Information about the first byte of an encoding: the low three bits
    are the size, the high four bits index [acceptRanges]. *)
Definition xx : Z := 0xF1.
Definition as_ : Z := 0xF0.
Definition s1 : Z := 0x02.
Definition s2 : Z := 0x13.
Definition s3 : Z := 0x03.
Definition s4 : Z := 0x23.
Definition s5 : Z := 0x34.
Definition s6 : Z := 0x04.
Definition s7 : Z := 0x44.

Definition first (b : Z) : Z :=
  if b <? 0x80 then as_
  else if b <? 0xC2 then xx
  else if b <? 0xE0 then s1
  else if b =? 0xE0 then s2
  else if b <? 0xED then s3
  else if b =? 0xED then s4
  else if b <? 0xF0 then s3
  else if b =? 0xF0 then s5
  else if b <? 0xF4 then s6
  else if b =? 0xF4 then s7
  else xx.

Definition acceptRanges (i : Z) : Z * Z :=
  if i =? 0 then (locb, hicb)
  else if i =? 1 then (0xA0, hicb)
  else if i =? 2 then (locb, 0x9F)
  else if i =? 3 then (0x90, hicb)
  else if i =? 4 then (locb, 0x8F)
  else (0, 0).

(** [utf8.DecodeRuneInString]: the first rune of [s] and its width in
    bytes; [(RuneError, 0)] for the empty string and [(RuneError, 1)] for
    an invalid encoding. *)
Definition DecodeRuneInString (s : string) : rune * nat :=
  match s with
  | EmptyString => (RuneError, 0%nat)
  | String c0 t0 =>
    let b0 := byte_val c0 in
    let x := first b0 in
    if as_ <=? x then
      (* mask := rune(x) << 31 >> 31 is all ones exactly when bit 0 of x is set *)
      ((if Z.testbit x 0 then RuneError else b0), 1%nat)
    else
      let sz := Z.land x 7 in
      let accept := acceptRanges (Z.shiftr x 4) in
      if len s <? sz then (RuneError, 1%nat) else
      match t0 with
      | EmptyString => (RuneError, 1%nat)
      | String c1 t1 =>
        let b1 := byte_val c1 in
        if (b1 <? fst accept) || (snd accept <? b1) then (RuneError, 1%nat) else
        if sz <=? 2 then
          (Z.lor (Z.shiftl (Z.land b0 mask2) 6) (Z.land b1 maskx), 2%nat)
        else
        match t1 with
        | EmptyString => (RuneError, 1%nat)
        | String c2 t2 =>
          let b2 := byte_val c2 in
          if (b2 <? locb) || (hicb <? b2) then (RuneError, 1%nat) else
          if sz <=? 3 then
            (Z.lor (Z.lor (Z.shiftl (Z.land b0 mask3) 12)
                          (Z.shiftl (Z.land b1 maskx) 6))
                   (Z.land b2 maskx), 3%nat)
          else
          match t2 with
          | EmptyString => (RuneError, 1%nat)
          | String c3 _ =>
            let b3 := byte_val c3 in
            if (b3 <? locb) || (hicb <? b3) then (RuneError, 1%nat) else
            (Z.lor (Z.lor (Z.lor (Z.shiftl (Z.land b0 mask4) 18)
                                 (Z.shiftl (Z.land b1 maskx) 12))
                          (Z.shiftl (Z.land b2 maskx) 6))
                   (Z.land b3 maskx), 4%nat)
          end
        end
      end
  end.

(** A byte string from the values of its bytes. *)
Definition bytes (l : list Z) : string :=
  fold_right (fun x s => String (byte_of x) s) EmptyString l.

(** [byte(x)] as a number. *)
Definition byte (x : Z) : Z := x mod 256.

(** [utf8.AppendRune(nil, r)]: the UTF-8 encoding of [r]; the encoding of
    [RuneError] for a surrogate or a value out of range. *)
Definition AppendRune (r : rune) : string :=
  if (0 <=? r) && (r <=? rune1Max) then
    bytes [byte r]
  else if (0 <=? r) && (r <=? rune2Max) then
    bytes [Z.lor t2 (byte (Z.shiftr r 6));
           Z.lor tx (Z.land (byte r) maskx)]
  else if ((0 <=? r) && (r <? surrogateMin))
          || ((surrogateMax <? r) && (r <=? rune3Max)) then
    bytes [Z.lor t3 (byte (Z.shiftr r 12));
           Z.lor tx (Z.land (byte (Z.shiftr r 6)) maskx);
           Z.lor tx (Z.land (byte r) maskx)]
  else if (rune3Max <? r) && (r <=? MaxRune) then
    bytes [Z.lor t4 (byte (Z.shiftr r 18));
           Z.lor tx (Z.land (byte (Z.shiftr r 12)) maskx);
           Z.lor tx (Z.land (byte (Z.shiftr r 6)) maskx);
           Z.lor tx (Z.land (byte r) maskx)]
  else
    bytes [0xEF; 0xBF; 0xBD].

(** [for i, c := range s]: the runes the loop visits with the byte index
    of each.  [skip] counts the bytes still to pass over of the rune
    decoded last; [i] is the index of the first byte of [s]. *)
Fixpoint range_from (s : string) (skip : nat) (i : nat) : list (nat * rune) :=
  match s with
  | EmptyString => []
  | String _ s' =>
    match skip with
    | S k => range_from s' k (S i)
    | O =>
      let '(c, size) := DecodeRuneInString s in
      (i, c) :: range_from s' (Nat.pred size) (S i)
    end
  end.

Definition range (s : string) : list (nat * rune) := range_from s 0 0.

(** [strings.IndexFunc(s, f)]: the byte index of the first rune of [s]
    that satisfies [f], or -1. *)
Definition IndexFunc (s : string) (f : rune -> bool) : Z :=
  match List.find (fun ic => f (snd ic)) (range s) with
  | Some (i, _) => Z.of_nat i
  | None => -1
  end.

(** ** Values, parameters and errors *)

(** [strconv.FormatFloat], [decimal.Decimal.String], [time.Time.Format]
    and [json.Marshal] belong to libraries outside the package.  A value
    of one of their types is carried as what the library answers for it,
    which is all the package ever asks of such a value. *)
Record float64 := { FormatFloat_g : string }.
Record Decimal := { Decimal_String : string }.
Record Time := { Time_Format : string -> string }.

(** The answer of [json.Marshal]: the encoded bytes (a slice, which may
    be nil) or an error with its message. *)
Inductive json_result :=
| json_encoded (encoded : option string)
| json_error (msg : string).

(** A value of a dynamic type the type switch of [toDbValue] has no case
    for: a slice, a map, a struct, a pointer to one of those. *)
Record other := { json_Marshal : json_result }.

(** The dynamic values of [interface{}] that [toDbValue] tells apart.  A
    pointer is [None] when nil; a slice is [None] when nil. *)
#[warnings="-register-all"]
Inductive any :=
| Nil
| StringPtr (p : option string)
| String_ (s : string)
| IntPtr (p : option Z)
| Int (n : Z)
| Float64Ptr (p : option float64)
| Float64 (f : float64)
| BoolPtr (p : option bool)
| Bool (b : bool)
| DecimalPtr (p : option Decimal)
| Decimal_ (d : Decimal)
| TimePtr (p : option Time)
| Time_ (t : Time)
| CommaListParam (l : option (list any))
| Other (o : other).

(** [type Params map[string]interface{}] *)
Abbreviation Params := (gmap string any).

(** Go errors.  [ErrNoRows] is the sentinel [sql.ErrNoRows]; [errorString]
    is an error made by [fmt.Errorf] or handed over by a library, with its
    message; [Error_] is the package's own error type. *)
Inductive error :=
| ErrNoRows
| errorString (msg : string)
| Error_ (cause : error) (Query : string) (Params_ : Params).

Definition wrapError (err : option error) (sql : string) (params : Params) : option error :=
  match err with
  | None => None
  | Some err => Some (Error_ err sql params)
  end.

(** The method [Error] of the package's error, for a cause that is not nil. *)
Fixpoint Error_Error (e : error) : string :=
  match e with
  | ErrNoRows => "sql: no rows in result set"
  | errorString msg => msg
  | Error_ cause _ _ => Error_Error cause
  end.

(** The method [Cause] of the package's error. *)
Definition Cause (e : error) : option error :=
  match e with
  | Error_ cause _ _ => Some cause
  | _ => None
  end.

(** ** The literal quoter and the value encoder *)

Definition DateTimeTzFormat : string := "2006-01-02 15:04:05.999999999-07".

Definition backslash : ascii := ascii_of_nat 92.
Definition quote : ascii := ascii_of_nat 39.

(** [strings.Builder.WriteString], [WriteRune] *)
Definition WriteString (b : string) (s : string) : string := b ++ s.
Definition WriteRune (b : string) (r : rune) : string := b ++ AppendRune r.

(** The loop of [quoteLiteral] over the runes of [s], on the builder and
    the flag [hasSlash]. *)
Fixpoint quoteLiteral_loop (cs : list (nat * rune)) (b : string) (hasSlash : bool)
  : string * bool :=
  match cs with
  | [] => (b, hasSlash)
  | (_, c) :: cs' =>
    if c =? byte_val backslash then
      quoteLiteral_loop cs' (WriteString b (String backslash (String backslash ""))) true
    else if c =? byte_val quote then
      quoteLiteral_loop cs' (WriteString b (String quote (String quote ""))) hasSlash
    else
      quoteLiteral_loop cs' (WriteRune b c) hasSlash
  end.

(** [quoteLiteral] properly escapes string to be safely passed as a value
    in SQL query. *)
Definition quoteLiteral (s : string) : string :=
  let b := "" in
  let b := WriteRune b (byte_val "E") in
  let b := WriteRune b (byte_val quote) in
  let '(b, hasSlash) := quoteLiteral_loop (range s) b false in
  let b := WriteRune b (byte_val quote) in
  let s := b in
  if negb hasSlash then
    (* remove unnecessary E at the beginning: s[1:] *)
    drop_bytes 1 s
  else s.

(** [strconv.Itoa] *)
Definition Itoa (n : Z) : string := NilZero.string_of_int (Z.to_int n).

(** [strconv.FormatBool] *)
Definition FormatBool (b : bool) : string := if b then "true" else "false".

(** [strings.Join] *)
Fixpoint Join (elems : list string) (sep : string) : string :=
  match elems with
  | [] => ""
  | [e] => e
  | e :: rest => e ++ sep ++ Join rest sep
  end.

(** The elements of a slice, nil or not: [len] and [range] treat a nil
    slice as an empty one. *)
Definition elems {A} (l : option (list A)) : list A :=
  match l with
  | Some vs => vs
  | None => []
  end.

(** The loop of [toDbValue] over the elements of a list parameter,
    [e[i], err = toDbValue(value[i])], which returns at the first
    error; [encode] stands for [toDbValue] itself. *)
Definition toDbValue_elements (encode : any -> string * option error)
  : list any -> list string -> list string * option error :=
  fix each (vs : list any) (e : list string) : list string * option error :=
    match vs with
    | [] => (e, None)
    | v :: vs' =>
      match encode v with
      | (_, Some err) => (e, Some err)
      | (ei, None) => each vs' (e ++ [ei])%list
      end
    end.

(** [toDbValue] prepares value to be passed in SQL query with respect to
    its type and converts it to string.  The result is Go's pair of the
    text and the error.  A pointer that is not nil is dereferenced and
    encoded as the value it points to ([toDbValue_deref]). *)
Fixpoint toDbValue (value : any) : string * option error :=
  match value with
  | Nil => ("NULL", None)
  | StringPtr None => ("NULL", None)
  | StringPtr (Some v) => (quoteLiteral v, None)
  | String_ v => (quoteLiteral v, None)
  | IntPtr None => ("NULL", None)
  | IntPtr (Some v) => (Itoa v, None)
  | Int v => (Itoa v, None)
  | Float64Ptr None => ("NULL", None)
  | Float64Ptr (Some v) => (FormatFloat_g v, None)
  | Float64 v => (FormatFloat_g v, None)
  | BoolPtr None => ("NULL", None)
  | BoolPtr (Some v) => (FormatBool v, None)
  | Bool v => (FormatBool v, None)
  | DecimalPtr None => ("NULL", None)
  | DecimalPtr (Some v) => (Decimal_String v, None)
  | Decimal_ v => (Decimal_String v, None)
  | TimePtr None => ("NULL", None)
  | TimePtr (Some v) => (quoteLiteral (Time_Format v DateTimeTzFormat), None)
  | Time_ v => (quoteLiteral (Time_Format v DateTimeTzFormat), None)
  | CommaListParam l =>
    match
      match l with
      | Some vs => toDbValue_elements toDbValue vs []
      | None => ([], None) (* a nil slice has length 0: no iteration *)
      end
    with
    | (_, Some err) => ("", Some err)
    | (e, None) => (Join e ", ", None)
    end
  | Other o =>
    match json_Marshal o with
    | json_error msg => ("", Some (errorString msg))
    | json_encoded encoded =>
      let asString := default "" encoded in
      if bool_decide (encoded = None) || String.eqb asString "null" then ("NULL", None)
      else (quoteLiteral asString, None)
    end
  end.

(** ** The placeholder scanner *)

Definition isNotWordChar (r : rune) : bool :=
  negb (((byte_val "A" <=? r) && (r <=? byte_val "Z"))
        || ((byte_val "a" <=? r) && (r <=? byte_val "z"))
        || (r =? byte_val "_")).

(** The outcome of running a loop of the package: what it returns, a
    run-time panic (an index out of range), or the end of the fuel that
    bounds the number of iterations here. *)
Inductive run (A : Type) :=
| Done (a : A)
| Panic
| OutOfFuel.
Arguments Done {A} a.
Arguments Panic {A}.
Arguments OutOfFuel {A}.

#[export] Instance run_bind : MBind run := fun A B k m =>
  match m with
  | Done a => k a
  | Panic => Panic
  | OutOfFuel => OutOfFuel
  end.

(** An index or slice expression, which panics out of range. *)
Definition checked {A} (o : option A) : run A :=
  match o with
  | Some a => Done a
  | None => Panic
  end.

(** The [for] loop of [qprintf]: [s] is the text still to scan, [result]
    the builder. *)
Fixpoint qprintf_loop (fuel : nat) (params : Params) (s : string) (result : string)
  : run (string * option error) :=
  match fuel with
  | O => OutOfFuel
  | S fuel =>
    let idx := IndexRune s ":" in
    (* ':' not found or its at the end of the string *)
    if (idx =? -1) || (idx =? len s - 1) then
      Done (WriteString result s, None)
    else
      (* followed by a non-word char? *)
      c ← checked (byte_at s (idx + 1));
      if isNotWordChar (byte_val c) then
        head ← checked (slice_to s (idx + 2));
        s ← checked (slice_from s (idx + 2));
        qprintf_loop fuel params s (WriteString result head)
      else
        head ← checked (slice_to s idx);
        let result := WriteString result head in
        s ← checked (slice_from s (idx + 1)); (* skip ':' char *)
        (* find next \W character *)
        let idxEnd := IndexFunc s isNotWordChar in
        param ← (if idxEnd =? -1 then Done s else checked (slice_to s idxEnd));
        match params !! param with
        | None =>
          Done ("", Some (errorString ("parameter " ++ param ++ " is missing")))
        | Some v =>
          match toDbValue v with
          | (_, Some err) => Done ("", Some err)
          | (castedValue, None) =>
            let result := WriteString result castedValue in
            if idxEnd =? -1 then Done (result, None)
            else
              s ← checked (slice_from s idxEnd);
              qprintf_loop fuel params s result
          end
        end
  end.

(** Every iteration but the last shortens [s], so [len(sql) + 1]
    iterations are enough ([qprintf_returns]). *)
Definition qprintf (sql : string) (params : Params) : run (string * option error) :=
  qprintf_loop (S (String.length sql)) params sql "".

(** ** Programs that call the connection

    The operations of the executor and of the migration runner call an
    external connection.  They are modelled as trees of calls: [Ret] is
    a return, [Call c k] hands the call [c] to the connection and goes
    on with [k] on its answer, and [Abort] is a program stopped by a
    panic.  Which calls a program makes, and in which order, can be read
    off the tree; a model of the connection ([handler]) runs it. *)

(** [context.Context] *)
Inductive Context :=
| Background
| WithCancel (parent : Context) (id : nat).

(** The two implementations of [Queryable] in database/sql. *)
Inductive Queryable :=
| sql_DB
| sql_Tx.

(** [sql.Result], with what [RowsAffected] answers. *)
Record Result := { RowsAffected : Z }.

(** [*sql.Row]: a row handle is carried as what its [Scan] answers, the
    error or the value it stores into an [int] or a [[]byte]
    destination. *)
Record Row := {
  Scan_err : option error;
  Scan_int : Z;
  Scan_bytes : string;
}.

(** One row of a result set, carried as what [sqlstruct.Scan] answers
    for it: the error or the element it fills. *)
Record RawRow := {
  sqlstruct_err : option error;
  sqlstruct_elem : string;
}.

(** [*sql.Rows]: the rows still to come, and the error [Err] reports
    when the iteration stopped early. *)
Record Rows := {
  pending : list RawRow;
  Err : option error;
}.

Inductive call : Type -> Type :=
| ExecContext (db : Queryable) (ctx : Context) (query : string)
  : call (option Result * option error)
| QueryContext (db : Queryable) (ctx : Context) (query : string)
  : call (option Rows * option error)
| QueryRowContext (db : Queryable) (ctx : Context) (query : string)
  : call Row
| QueryRow_ (db : Queryable) (query : string) : call Row
| Begin : call (option error)
| Exec_ (db : Queryable) (query : string) : call (option Result * option error)
| Commit : call (option error)
| Rollback : call (option error).

Inductive prog (A : Type) : Type :=
| Ret (a : A)
| Call {X : Type} (c : call X) (k : X -> prog A)
| Abort.
Arguments Ret {A} a.
Arguments Call {A X} c k.
Arguments Abort {A}.

Fixpoint prog_bind {A B} (k : A -> prog B) (p : prog A) : prog B :=
  match p with
  | Ret a => k a
  | Call c k' => Call c (fun x => prog_bind k (k' x))
  | Abort => Abort
  end.

#[export] Instance prog_mbind : MBind prog := @prog_bind.

Definition perform {X} (c : call X) : prog X := Call c Ret.

(** A loop of the package run inside a program.  [qprintf] never panics
    nor runs out of fuel ([qprintf_returns]). *)
Definition lift {A} (r : run A) : prog A :=
  match r with
  | Done a => Ret a
  | _ => Abort
  end.

(** *** Statement executor *)

Definition Exec (ctx : Context) (db : Queryable) (sql : string) (params : Params)
  : prog (option Result * option error) :=
  '(query, err) ← lift (qprintf sql params);
  if bool_decide (err ≠ None) then Ret (None, wrapError err sql params) else
  '(res, err) ← perform (ExecContext db ctx query);
  if bool_decide (err ≠ None) then Ret (None, wrapError err sql params) else
  Ret (res, None).

Definition Query (ctx : Context) (db : Queryable) (sql : string) (params : Params)
  : prog (option Rows * option error) :=
  '(query, err) ← lift (qprintf sql params);
  if bool_decide (err ≠ None) then Ret (None, wrapError err sql params) else
  '(rows, err) ← perform (QueryContext db ctx query);
  if bool_decide (err ≠ None) then Ret (None, wrapError err sql params) else
  Ret (rows, None).

Definition QueryRow (ctx : Context) (db : Queryable) (sql : string) (params : Params)
  : prog (option Row * option error) :=
  '(query, err) ← lift (qprintf sql params);
  if bool_decide (err ≠ None) then Ret (None, wrapError err sql params) else
  row ← perform (QueryRowContext db ctx query);
  Ret (Some row, None).

(** [err == sql.ErrNoRows] *)
Definition is_ErrNoRows (err : error) : bool :=
  match err with
  | ErrNoRows => true
  | _ => false
  end.

(** A method called through a pointer, which panics when it is nil. *)
Definition deref {A} (p : option A) : prog A :=
  match p with
  | Some a => Ret a
  | None => Abort
  end.

Section Executor.

(** [json.Unmarshal(data, target)], of package encoding/json: the
    error, if any, for the bytes [data]. *)
Variable json_Unmarshal : string -> option error.

Definition QueryRowAndScan (ctx : Context) (db : Queryable) (q : string)
    (params : Params) : prog (option error) :=
  '(row, err) ← QueryRow ctx db q params;
  if bool_decide (err ≠ None) then Ret err else
  row ← deref row;
  match Scan_err row with
  | Some err =>
    if is_ErrNoRows err then Ret (Some err)
    else Ret (wrapError (Some err) q params)
  | None => Ret None
  end.

Definition QueryJSONRowIntoStruct (ctx : Context) (db : Queryable) (q : string)
    (params : Params) : prog (option error) :=
  '(row, err) ← QueryRow ctx db q params;
  if bool_decide (err ≠ None) then Ret err else
  row ← deref row;
  match Scan_err row with
  | Some err =>
    if is_ErrNoRows err then Ret (Some err)
    else Ret (wrapError (Some err) q params)
  | None =>
    let data := Scan_bytes row in
    match json_Unmarshal data with
    | Some err => Ret (wrapError (Some err) q params)
    | None => Ret None
    end
  end.

(** [rows.Next()] is true while a row is pending; [rows.Close()],
    deferred, releases the result set and is not a call of
    [Queryable]. *)
Definition QueryRowIntoStruct (ctx : Context) (db : Queryable) (q : string)
    (params : Params) : prog (option error) :=
  '(rows, err) ← Query ctx db q params;
  if bool_decide (err ≠ None) then Ret err else
  rows ← deref rows;
  match pending rows with
  | [] => Ret (Some ErrNoRows)
  | r :: _ =>
    match sqlstruct_err r with
    | Some err => Ret (wrapError (Some err) q params)
    | None => Ret None
    end
  end.

(** The loop [for rows.Next()] of [QueryRowsIntoSlice], on the slice
    [v] built so far. *)
Fixpoint QueryRowsIntoSlice_loop (q : string) (params : Params)
    (rs : list RawRow) (v : list string) : option (list string) * option error :=
  match rs with
  | [] => (Some v, None)
  | r :: rs' =>
    match sqlstruct_err r with
    | Some err => (None, wrapError (Some err) q params)
    | None => QueryRowsIntoSlice_loop q params rs' (v ++ [sqlstruct_elem r])%list
    end
  end.

Definition QueryRowsIntoSlice (ctx : Context) (db : Queryable) (q : string)
    (params : Params) : prog (option (list string) * option error) :=
  '(rows, err) ← Query ctx db q params;
  if bool_decide (err ≠ None) then Ret (None, err) else
  rows ← deref rows;
  Ret (QueryRowsIntoSlice_loop q params (pending rows) []).

(** [ScanJSONRowsIntoStruct], on the current row of [rows] carried as
    what [rows.Scan] answers for it. *)
Definition ScanJSONRowsIntoStruct (current : Row) : option error :=
  match Scan_err current with
  | Some err => Some err
  | None => json_Unmarshal (Scan_bytes current)
  end.

End Executor.

(** ** The migration runner *)

Definition InitialMigration : string := "
CREATE TABLE IF NOT EXISTS migrations (version INT NOT NULL PRIMARY KEY);
INSERT INTO migrations VALUES (1);
".

Record Migration := {
  Version : Z;
  Sql : string;
}.

(** [strings.HasPrefix] and [strings.Contains] *)
Fixpoint HasPrefix (s prefix : string) : bool :=
  match prefix, s with
  | EmptyString, _ => true
  | String p prefix', String c s' => Ascii.eqb c p && HasPrefix s' prefix'
  | String _ _, EmptyString => false
  end.

Fixpoint Contains (s substr : string) : bool :=
  HasPrefix s substr ||
  match s with
  | EmptyString => false
  | String _ s' => Contains s' substr
  end.

Definition getLatestVersion : prog (Z * option error) :=
  let latest := 0 in
  row ← perform (QueryRow_ sql_DB "SELECT version FROM migrations");
  let err := Scan_err row in
  let latest := if bool_decide (err = None) then Scan_int row else latest in
  match err with
  | Some e =>
    if negb (is_ErrNoRows e) && negb (Contains (Error_Error e) "migrations")
    then Ret (0, err)
    else Ret (latest, None)
  | None => Ret (latest, None)
  end.

(** The loop of [Run] over the migrations, on the tracker [latest] and
    the error [err]; it returns both as the loop leaves them. *)
Fixpoint Run_loop (migrations : list Migration) (latest : Z) (err : option error)
  : prog (Z * option error) :=
  match migrations with
  | [] => Ret (latest, err)
  | m :: rest =>
    if bool_decide (err ≠ None) then Ret (latest, err) (* break *)
    else if Version m >? latest then
      '(_, err) ← perform (Exec_ sql_Tx (Sql m));
      let latest := Version m in
      Run_loop rest latest err
    else Run_loop rest latest err
  end.

Definition Run (migrations : list Migration) : prog (option error) :=
  '(latest, err) ← getLatestVersion;
  if bool_decide (err ≠ None) then Ret err else
  err ← perform Begin;
  if bool_decide (err ≠ None) then Ret err else
  (* defer tx.Rollback() *)
  returned ← (
    let ctx := Background in
    '(latest, err) ← Run_loop migrations latest err;
    if bool_decide (err = None) then
      '(_, err') ← Exec ctx sql_Tx "UPDATE migrations SET version = :latest"
                       {[ "latest" := Int latest ]};
      if bool_decide (err' ≠ None) then Ret err' else
      _ ← perform Commit;
      Ret err
    else Ret err);
  _ ← perform Rollback;
  Ret returned.

(** ** A model of the connection

    Modelled from the spec: the connection and its transactions, which
    are outside the package (database/sql over PostgreSQL), and the
    catalog table the runner keeps its version in (spec, sections 4.5
    and 6).  A database is the catalog table [migrations], absent or with
    its rows in order, and the rest of the schema, seen as the list of
    statements applied to it.  A connection is the committed database,
    the working copy of the open transaction if any, and the log of the
    statements handed to [tx.Exec].  What a migration body does to a
    database is left to the parameter [ddl]. *)

Record Database := {
  catalog : option (list Z);
  schema : list string;
}.

Record Conn := {
  committed : Database;
  transaction : option Database;
  executed : list string;
}.

Definition dquote : ascii := ascii_of_nat 34.


Definition relation_missing : error :=
  errorString ("pq: relation " ++ String dquote "migrations" ++ String dquote " does not exist").

Definition duplicate_key : error :=
  errorString ("pq: duplicate key value violates unique constraint "
               ++ String dquote "migrations_pkey" ++ String dquote EmptyString).

Definition ErrTxDone : error :=
  errorString "sql: transaction has already been committed or rolled back".

Definition unknown_statement : error :=
  errorString "pq: syntax error".

(** [SELECT version FROM migrations], read by [QueryRow(...).Scan]: the
    first row, [sql.ErrNoRows] without one, an error without the
    table. *)
Definition select_version (d : Database) : Row :=
  match catalog d with
  | None => {| Scan_err := Some relation_missing; Scan_int := 0; Scan_bytes := EmptyString |}
  | Some [] => {| Scan_err := Some ErrNoRows; Scan_int := 0; Scan_bytes := EmptyString |}
  | Some (v :: _) => {| Scan_err := None; Scan_int := v; Scan_bytes := Itoa v |}
  end.

Definition update_prefix : string := "UPDATE migrations SET version = ".

(** The number [n] of the statement [UPDATE migrations SET version = n]. *)
Definition parse_update (query : string) : option Z :=
  if HasPrefix query update_prefix
  then Z.of_int <$> NilZero.int_of_string (drop_bytes (String.length update_prefix) query)
  else None.

(** [UPDATE migrations SET version = n] sets the version of every row;
    the version is the primary key, so two rows cannot both take it. *)
Definition update_version (n : Z) (d : Database) : option Result * option error * Database :=
  match catalog d with
  | None => (None, Some relation_missing, d)
  | Some rows =>
    if (2 <=? Z.of_nat (length rows)) then (None, Some duplicate_key, d)
    else (Some {| RowsAffected := Z.of_nat (length rows) |}, None,
          {| catalog := Some (map (fun _ => n) rows); schema := schema d |})
  end.

Section Connection.

(** What the database does with a migration body: the database after
    it, or the error it is refused with. *)
Variable ddl : string -> Database -> Database + error.
(** The errors, if any, of [db.Begin] and [tx.Commit]. *)
Variable begin_error : option error.
Variable commit_error : option error.

Definition handler {X} (c : call X) (conn : Conn) : X * Conn :=
  match c in call X return X * Conn with
  | QueryRow_ _ query =>
    if String.eqb query "SELECT version FROM migrations"
    then (select_version (committed conn), conn)
    else ({| Scan_err := Some unknown_statement; Scan_int := 0; Scan_bytes := EmptyString |}, conn)
  | Begin =>
    match begin_error with
    | Some e => (Some e, conn)
    | None =>
      (None, {| committed := committed conn;
                transaction := Some (committed conn);
                executed := executed conn |})
    end
  | Exec_ _ query =>
    let log := (executed conn ++ [query])%list in
    match transaction conn with
    | None =>
      (None, Some ErrTxDone,
       {| committed := committed conn; transaction := None; executed := log |})
    | Some d =>
      match ddl query d with
      | inl d' =>
        (Some {| RowsAffected := 0 |}, None,
         {| committed := committed conn; transaction := Some d'; executed := log |})
      | inr e =>
        (None, Some e,
         {| committed := committed conn; transaction := Some d; executed := log |})
      end
    end
  | ExecContext _ _ query =>
    match transaction conn, parse_update query with
    | Some d, Some n =>
      let '(res, err, d') := update_version n d in
      (res, err,
       {| committed := committed conn; transaction := Some d'; executed := executed conn |})
    | None, _ => (None, Some ErrTxDone, conn)
    | _, None => (None, Some unknown_statement, conn)
    end
  | Commit =>
    match transaction conn with
    | None => (Some ErrTxDone, conn)
    | Some d =>
      match commit_error with
      | Some e =>
        (Some e, {| committed := committed conn; transaction := None;
                    executed := executed conn |})
      | None =>
        (None, {| committed := d; transaction := None; executed := executed conn |})
      end
    end
  | Rollback =>
    match transaction conn with
    | None => (Some ErrTxDone, conn)
    | Some _ =>
      (None, {| committed := committed conn; transaction := None;
                executed := executed conn |})
    end
  | QueryContext _ _ _ => (None, Some unknown_statement, conn)
  | QueryRowContext _ _ _ =>
    ({| Scan_err := Some unknown_statement; Scan_int := 0; Scan_bytes := EmptyString |}, conn)
  end.

(** A program run on a connection: what it returns and the connection
    it leaves, or [None] when it panics. *)
Fixpoint interp {A} (p : prog A) (conn : Conn) : option (A * Conn) :=
  match p with
  | Ret a => Some (a, conn)
  | Call c k => let '(x, conn') := handler c conn in interp (k x) conn'
  | Abort => None
  end.

End Connection.

(** The version a fresh [Run] would read from the committed database. *)
Definition persisted_version (conn : Conn) : Z :=
  match catalog (committed conn) with
  | Some (v :: _) => v
  | _ => 0
  end.

(** A database for the examples: a body that starts with
    [InitialMigration] creates the catalog table when it is absent and
    inserts version 1; a statement on the table [no_such_table] is
    refused; any other statement is applied. *)
Definition example_ddl (query : string) (d : Database) : Database + error :=
  if HasPrefix query InitialMigration then
    let rows := elems (catalog d) in
    if existsb (Z.eqb 1) rows then inr duplicate_key
    else inl {| catalog := Some (rows ++ [1])%list; schema := (schema d ++ [query])%list |}
  else if Contains query "no_such_table" then
    inr (errorString "pq: relation no_such_table does not exist")
  else inl {| catalog := catalog d; schema := (schema d ++ [query])%list |}.

Definition empty_database : Database := {| catalog := None; schema := [] |}.

Definition fresh_conn (d : Database) : Conn :=
  {| committed := d; transaction := None; executed := [] |}.

(** ** The scanner, token by token

    What [qprintf] does with a template, told one byte at a time: a
    template is cut into bytes that pass through and placeholders
    ([scan]), and the tokens are written out in order ([render]).
    [qprintf_scan] proves that the loop computes just that. *)

Inductive token :=
| Lit (c : ascii)
| Placeholder (name : string).

Definition is_colon (c : ascii) : bool := Ascii.eqb c ":".

(** A byte of a placeholder name: [A-Za-z_]. *)
Definition is_name_byte (c : ascii) : bool := negb (isNotWordChar (byte_val c)).

(** The longest prefix of [s] made of name bytes, and the rest. *)
Fixpoint span_name (s : string) : string * string :=
  match s with
  | EmptyString => (EmptyString, EmptyString)
  | String c s' =>
    if is_name_byte c
    then let '(name, rest) := span_name s' in (String c name, rest)
    else (EmptyString, s)
  end.

(** [skip] counts the bytes of [s] that belong to the name of the
    placeholder met last. *)
Fixpoint scan (s : string) (skip : nat) : list token :=
  match s with
  | EmptyString => []
  | String c s' =>
    match skip with
    | S k => scan s' k
    | O =>
      if is_colon c then
        match s' with
        | EmptyString => [Lit c]
        | String d s'' =>
          if is_name_byte d then
            let name := fst (span_name s') in
            Placeholder name :: scan s' (String.length name)
          else Lit c :: Lit d :: scan s'' 0
        end
      else Lit c :: scan s' 0
    end
  end.

Definition missing (param : string) : error :=
  errorString ("parameter " ++ param ++ " is missing").

Fixpoint render (params : Params) (toks : list token) (result : string)
  : string * option error :=
  match toks with
  | [] => (result, None)
  | Lit c :: toks' => render params toks' (result ++ String c EmptyString)
  | Placeholder name :: toks' =>
    match params !! name with
    | None => (EmptyString, Some (missing name))
    | Some v =>
      match toDbValue v with
      | (_, Some err) => (EmptyString, Some err)
      | (castedValue, None) => render params toks' (result ++ castedValue)
      end
    end
  end.

(** Every byte of [s] satisfies [p]. *)
Fixpoint all_bytes (p : ascii -> bool) (s : string) : bool :=
  match s with
  | EmptyString => true
  | String c s' => p c && all_bytes p s'
  end.

Definition no_colon (s : string) : bool := all_bytes (fun c => negb (is_colon c)) s.

(** The bytes of [s] as tokens. *)
Fixpoint lits (s : string) : list token :=
  match s with
  | EmptyString => []
  | String c s' => Lit c :: lits s'
  end.

(** How [strings.IndexRune(s, ':')] cuts [s]. *)
Inductive colon_cut (s : string) : Z -> Prop :=
| cut_none : no_colon s = true -> colon_cut s (-1)
| cut_at head rest :
    s = head ++ String ":" rest -> no_colon head = true -> colon_cut s (len head).

(** The names of the placeholders among the tokens. *)
Fixpoint placeholders (toks : list token) : list string :=
  match toks with
  | [] => []
  | Lit _ :: toks' => placeholders toks'
  | Placeholder name :: toks' => name :: placeholders toks'
  end.

(** The text of a template cut into tokens, and the text written for
    the tokens when every placeholder is bound and encodes. *)
Definition token_text (t : token) : string :=
  match t with
  | Lit c => String c EmptyString
  | Placeholder name => String ":" name
  end.

Definition token_output (params : Params) (t : token) : string :=
  match t with
  | Lit c => String c EmptyString
  | Placeholder name =>
    match params !! name with
    | Some v => fst (toDbValue v)
    | None => EmptyString
    end
  end.

Definition flatten (l : list string) : string := fold_right String.append EmptyString l.

(** Somewhere in [s] a colon stands right before a name byte. *)
Fixpoint colon_before_name (s : string) : bool :=
  match s with
  | EmptyString => false
  | String c s' =>
    match s' with
    | EmptyString => false
    | String d _ => (is_colon c && is_name_byte d) || colon_before_name s'
    end
  end.

(** *** The template as the specification words it

    The specification (section 3, Template) says which colons start a
    placeholder: a placeholder is [:name] where [name] is a maximal run
    of name characters immediately following a colon that is not itself
    preceded by another colon; a colon with no following word character,
    or at the end of the string, is passed through unchanged.
    [spec_scan] follows these words, [after_colon] telling whether the
    byte before was a colon; [spec_substitute] writes its tokens out as
    [qprintf] does. *)
Definition starts_with_name (s : string) : bool :=
  match s with
  | EmptyString => false
  | String d _ => is_name_byte d
  end.

Fixpoint spec_scan (s : string) (after_colon : bool) (skip : nat) : list token :=
  match s with
  | EmptyString => []
  | String c s' =>
    match skip with
    | S k => spec_scan s' false k
    | O =>
      if is_colon c && negb after_colon && starts_with_name s' then
        let name := fst (span_name s') in
        Placeholder name :: spec_scan s' false (String.length name)
      else Lit c :: spec_scan s' (is_colon c) 0
    end
  end.

Definition spec_substitute (sql : string) (params : Params) : string * option error :=
  render params (spec_scan sql false 0) EmptyString.

(** A rune that is a Unicode scalar value. *)
Definition ValidRune (r : rune) : bool :=
  ((0 <=? r) && (r <? surrogateMin)) || ((surrogateMax <? r) && (r <=? MaxRune)).

(** *** Quoting as the specification words it

    A Unicode string is a sequence of code points, which Go holds in
    UTF-8 ([utf8]).  [spec_quote] follows the words of the specification
    (section 4.2): every single quote and every backslash is doubled,
    the result is enclosed in single quotes, and the marker [E] comes
    first if and only if the input has a backslash. *)
Definition utf8 (cps : list rune) : string := flatten (map AppendRune cps).

Definition is_backslash (c : rune) : bool := c =? byte_val backslash.
Definition is_quote (c : rune) : bool := c =? byte_val quote.

Definition doubled (c : rune) : list rune :=
  if is_backslash c || is_quote c then [c; c] else [c].

Definition spec_quote (cps : list rune) : list rune :=
  ((if existsb is_backslash cps then [byte_val "E"] else [])
   ++ [byte_val quote] ++ flat_map doubled cps ++ [byte_val quote])%list.

(** A program run against a connection that answers every call by
    [answer]; [None] when the program panics. *)
Fixpoint run_answers {A} (answer : forall X, call X -> X) (p : prog A) : option A :=
  match p with
  | Ret a => Some a
  | Call c k => run_answers answer (k (answer _ c))
  | Abort => None
  end.

(** A connection on which every statement fails with [sql.ErrNoRows]. *)
Definition answer_ErrNoRows (X : Type) (c : call X) : X :=
  match c in call X return X with
  | ExecContext _ _ _ => (None, Some ErrNoRows)
  | QueryContext _ _ _ => (None, Some ErrNoRows)
  | QueryRowContext _ _ _ =>
    {| Scan_err := Some ErrNoRows; Scan_int := 0; Scan_bytes := EmptyString |}
  | QueryRow_ _ _ =>
    {| Scan_err := Some ErrNoRows; Scan_int := 0; Scan_bytes := EmptyString |}
  | Begin => Some ErrNoRows
  | Exec_ _ _ => (None, Some ErrNoRows)
  | Commit => Some ErrNoRows
  | Rollback => Some ErrNoRows
  end.

(** The connection once [db.Begin] has opened a transaction. *)
Definition begun (conn : Conn) : Conn :=
  {| committed := committed conn;
     transaction := Some (committed conn);
     executed := executed conn |}.

(** The connection of an open transaction after one more statement was
    handed to [tx.Exec], [d] being the working copy it leaves. *)
Definition after_exec (conn : Conn) (query : string) (d : Database) : Conn :=
  {| committed := committed conn;
     transaction := Some d;
     executed := (executed conn ++ [query])%list |}.

(** The connection once the transaction is rolled back. *)
Definition rolled_back (conn : Conn) : Conn :=
  {| committed := committed conn; transaction := None; executed := executed conn |}.

(** Migrations for the examples. *)
Definition create_table : Migration :=
  {| Version := 1; Sql := InitialMigration ++ "CREATE TABLE test (id INT);" |}.
Definition add_column : Migration :=
  {| Version := 2; Sql := "ALTER TABLE test ADD COLUMN note TEXT" |}.
Definition add_index : Migration :=
  {| Version := 5; Sql := "CREATE INDEX test_id ON test (id)" |}.
Definition bad_column : Migration :=
  {| Version := 2; Sql := "ALTER TABLE no_such_table ADD COLUMN note TEXT" |}.

(** [s] is empty, or starts with a byte that is neither a name byte
    nor a colon. *)
Definition starts_apart (s : string) : bool :=
  match s with
  | EmptyString => true
  | String d _ => negb (is_name_byte d) && negb (is_colon d)
  end.

(** A string that is well-formed UTF-8: the encoding of a sequence of
    Unicode scalar values. *)
Definition WellFormed (s : string) : Prop :=
  exists cps : list rune, Forall (fun c => ValidRune c = true) cps /\ s = utf8 cps.

(** ** The earlier literal quoter

    Before it was rewritten as a loop over the runes, [quoteLiteral]
    was written with [strings.Contains] and [strings.Replace]; the
    first two revisions of [db.go] have it in this form. *)

(** [strings.Index]: the byte index of the first instance of [substr]
    in [s], or -1. *)
Fixpoint Index_from (s substr : string) (i : nat) : Z :=
  if HasPrefix s substr then Z.of_nat i
  else
    match s with
    | EmptyString => -1
    | String _ s' => Index_from s' substr (S i)
    end.

Definition Index (s substr : string) : Z := Index_from s substr 0.

(** [strings.Count]: the number of non-overlapping instances of
    [substr] in [s]; one more than the number of runes of [s] for the
    empty [substr]. *)
Fixpoint Count_from (fuel : nat) (s substr : string) : nat :=
  match fuel with
  | O => O
  | S fuel =>
    let i := Index s substr in
    if i =? -1 then O
    else S (Count_from fuel (drop_bytes (Z.to_nat i + String.length substr) s) substr)
  end.

Definition Count (s substr : string) : nat :=
  match substr with
  | EmptyString => S (List.length (range s))
  | String _ _ => Count_from (S (String.length s)) s substr
  end.

(** The loop of [strings.Replace], [n] replacements from now on:
    [rest] is [s[start:]], [b] the builder, and [later] tells whether
    [i > 0]. *)
Fixpoint Replace_loop (n : nat) (later : bool) (rest old new : string) (b : string)
  : string :=
  match n with
  | O => WriteString b rest
  | S n =>
    let j :=
      match old with
      | EmptyString => if later then snd (DecodeRuneInString rest) else O
      | String _ _ => Z.to_nat (Index rest old)
      end in
    let b := WriteString b (take_bytes j rest) in
    let b := WriteString b new in
    Replace_loop n true (drop_bytes (j + String.length old) rest) old new b
  end.

(** [strings.Replace(s, old, new, n)]: the first [n] non-overlapping
    instances of [old] replaced by [new], all of them when [n < 0]. *)
Definition Replace (s old new : string) (n : Z) : string :=
  if String.eqb old new || (n =? 0) then s
  else
    let m := Count s old in
    if (m =? 0)%nat then s
    else
      let n := if (n <? 0) || (Z.of_nat m <? n) then m else Z.to_nat n in
      Replace_loop n false s old new EmptyString.

Module Earlier.

(** [quoteLiteral] properly escapes string to be safely passed as a
    value in SQL query. *)
Definition quoteLiteral (s : string) : string :=
  let p := if Contains s (String backslash EmptyString) then "E" else EmptyString in
  let s := Replace s (String quote EmptyString) (String quote (String quote EmptyString)) (-1) in
  let s := Replace s (String backslash EmptyString)
             (String backslash (String backslash EmptyString)) (-1) in
  p ++ String quote EmptyString ++ s ++ String quote EmptyString.

End Earlier.

(** [s] with every byte [q] replaced by [new]. *)
Fixpoint replace_byte (q : ascii) (new : string) (s : string) : string :=
  match s with
  | EmptyString => EmptyString
  | String c s' =>
    if Ascii.eqb c q then new ++ replace_byte q new s'
    else String c (replace_byte q new s')
  end.

(** [s] has a byte [q]. *)
Fixpoint has_byte (q : ascii) (s : string) : bool :=
  match s with
  | EmptyString => false
  | String c s' => Ascii.eqb c q || has_byte q s'
  end.

(** The messages of the errors [json.Marshal] has for the values
    inside [v], in the order [toDbValue] meets them: [v] itself when it
    goes to the JSON fallback, the elements of a list parameter from
    left to right, lists inside lists included. *)
Fixpoint marshal_errors (v : any) : list string :=
  match v with
  | CommaListParam (Some vs) => flat_map marshal_errors vs
  | Other o =>
    match json_Marshal o with
    | json_error msg => [msg]
    | json_encoded _ => []
    end
  | _ => []
  end.

(** A call handed to the connection, whatever the type of its answer. *)
Inductive event :=
| Event {X : Type} (c : call X).

(** The calls a program makes, in order, when the connection answers
    by [answer]. *)
Fixpoint calls {A} (answer : forall X, call X -> X) (p : prog A) : list event :=
  match p with
  | Ret _ => []
  | Call c k => Event c :: calls answer (k (answer _ c))
  | Abort => []
  end.

(** A connection that answers every query by the result set [rows]
    and accepts every statement. *)
Definition answer_rows (rows : Rows) (X : Type) (c : call X) : X :=
  match c in call X return X with
  | ExecContext _ _ _ => (Some {| RowsAffected := 0 |}, None)
  | QueryContext _ _ _ => (Some rows, None)
  | QueryRowContext _ _ _ =>
    {| Scan_err := None; Scan_int := 0; Scan_bytes := EmptyString |}
  | QueryRow_ _ _ =>
    {| Scan_err := None; Scan_int := 0; Scan_bytes := EmptyString |}
  | Begin => None
  | Exec_ _ _ => (Some {| RowsAffected := 0 |}, None)
  | Commit => None
  | Rollback => None
  end.

(** A connection on which the version query fails with [e] and every
    other call succeeds. *)
Definition answer_scan_error (e : error) (X : Type) (c : call X) : X :=
  match c in call X return X with
  | ExecContext _ _ _ => (Some {| RowsAffected := 1 |}, None)
  | QueryContext _ _ _ => (Some {| pending := []; Err := None |}, None)
  | QueryRowContext _ _ _ =>
    {| Scan_err := Some e; Scan_int := 0; Scan_bytes := EmptyString |}
  | QueryRow_ _ _ =>
    {| Scan_err := Some e; Scan_int := 0; Scan_bytes := EmptyString |}
  | Begin => None
  | Exec_ _ _ => (Some {| RowsAffected := 0 |}, None)
  | Commit => None
  | Rollback => None
  end.

(** The connection once the transaction that holds [d] is committed. *)
Definition committed_with (conn : Conn) (d : Database) : Conn :=
  {| committed := d; transaction := None; executed := executed conn |}.

(** The working copy [d] once the version update has set [n]. *)
Definition version_set (n : Z) (d : Database) : Database :=
  {| catalog := (fun rows => map (fun _ => n) rows) <$> catalog d; schema := schema d |}.

(** The statement of the version update and its parameters. *)
Definition update_statement : string := "UPDATE migrations SET version = :latest".


(** A connection to a database whose catalog table has no row. *)
Definition catalog_without_row : Conn :=
  fresh_conn {| catalog := Some []; schema := [] |}.

(** The statement of the version query. *)
Definition version_query : string := "SELECT version FROM migrations".



(** The values of Go's [int] on a 64-bit platform. *)
Definition is_int (n : Z) : Prop := - 2 ^ 63 <= n < 2 ^ 63.

(** * Properties *)

(** ** Byte strings *)

#[local] Arguments String.append !_ _ : simpl nomatch.

Lemma length_app (s t : string) :
  String.length (s ++ t) = (String.length s + String.length t)%nat.
Proof. induction s as [|c s IH]; simpl; [reflexivity | now rewrite IH]. Qed.

Lemma len_app (s t : string) : len (s ++ t) = len s + len t.
Proof. unfold len. rewrite length_app. lia. Qed.

Lemma len_nonneg (s : string) : 0 <= len s.
Proof. unfold len. lia. Qed.

Lemma len_String (c : ascii) (s : string) : len (String c s) = 1 + len s.
Proof. unfold len. simpl String.length. lia. Qed.

Lemma app_assoc (s t u : string) : (s ++ t) ++ u = s ++ (t ++ u).
Proof. induction s as [|c s IH]; simpl; [reflexivity | now rewrite IH]. Qed.

Lemma app_empty_r (s : string) : s ++ EmptyString = s.
Proof. induction s as [|c s IH]; simpl; [reflexivity | now rewrite IH]. Qed.

Lemma take_bytes_app (s t : string) : take_bytes (String.length s) (s ++ t) = s.
Proof. induction s as [|c s IH]; simpl; [now destruct t | now rewrite IH]. Qed.

Lemma take_bytes_all (s : string) : take_bytes (String.length s) s = s.
Proof. rewrite <- (app_empty_r s) at 2. apply take_bytes_app. Qed.

Lemma drop_bytes_app (s t : string) : drop_bytes (String.length s) (s ++ t) = t.
Proof. induction s as [|c s IH]; simpl; [now destruct t | exact IH]. Qed.

Lemma slice_to_app (s t : string) : slice_to (s ++ t) (len s) = Some s.
Proof.
  unfold slice_to, slice. rewrite len_app.
  pose proof (len_nonneg s). pose proof (len_nonneg t).
  replace ((0 <=? 0) && (0 <=? len s) && (len s <=? len s + len t)) with true
    by (symmetry; rewrite !andb_true_iff, !Z.leb_le; lia).
  unfold len. rewrite Z.sub_0_r, Nat2Z.id. simpl. now rewrite take_bytes_app.
Qed.

Lemma slice_from_app (s t : string) : slice_from (s ++ t) (len s) = Some t.
Proof.
  unfold slice_from, slice. rewrite len_app.
  pose proof (len_nonneg s). pose proof (len_nonneg t).
  replace ((0 <=? len s) && (len s <=? len s + len t) && (len s + len t <=? len s + len t))
    with true by (symmetry; rewrite !andb_true_iff, !Z.leb_le; lia).
  replace (len s + len t - len s) with (len t) by lia.
  unfold len. rewrite !Nat2Z.id, drop_bytes_app. now rewrite take_bytes_all.
Qed.

Lemma get_app (s t : string) (c : ascii) :
  String.get (String.length s) (s ++ String c t) = Some c.
Proof. induction s as [|b s IH]; simpl; [reflexivity | exact IH]. Qed.

Lemma byte_at_app (s t : string) (c : ascii) :
  byte_at (s ++ String c t) (len s) = Some c.
Proof.
  unfold byte_at. rewrite len_app, len_String.
  pose proof (len_nonneg s). pose proof (len_nonneg t).
  replace ((0 <=? len s) && (len s <? len s + (1 + len t))) with true
    by (symmetry; rewrite andb_true_iff, Z.leb_le, Z.ltb_lt; lia).
  unfold len. rewrite Nat2Z.id. apply get_app.
Qed.

Lemma find_byte_None (s : string) :
  find_byte ":" s = None <-> no_colon s = true.
Proof.
  unfold no_colon. induction s as [|c s IH]; simpl; [tauto|].
  unfold is_colon at 1. destruct (Ascii.eqb c ":"); simpl.
  - split; intros; discriminate.
  - rewrite <- IH. destruct (find_byte ":" s); simpl; split; congruence.
Qed.

Lemma find_byte_Some (s : string) (n : nat) :
  find_byte ":" s = Some n ->
  exists head rest, s = head ++ String ":" rest /\ String.length head = n
                    /\ no_colon head = true.
Proof.
  revert n. induction s as [|c s IH]; simpl; intros n H; [discriminate|].
  destruct (Ascii.eqb_spec c ":") as [->|Hc].
  - inversion H; subst. exists EmptyString, s. auto.
  - destruct (find_byte ":" s) as [m|]; simpl in H; [|discriminate].
    inversion H; subst. destruct (IH m eq_refl) as (head & rest & -> & Hl & Hn).
    exists (String c head), rest. simpl. repeat split; [now rewrite Hl|].
    unfold no_colon in *. simpl. unfold is_colon at 1.
    destruct (Ascii.eqb_spec c ":"); [contradiction | exact Hn].
Qed.

Lemma IndexRune_colon (s : string) : colon_cut s (IndexRune s ":").
Proof.
  unfold IndexRune. destruct (find_byte ":" s) as [n|] eqn:E.
  - destruct (find_byte_Some _ _ E) as (head & rest & Hs & Hl & Hn).
    replace (Z.of_nat n) with (len head) by (unfold len; now rewrite Hl).
    now apply cut_at with rest.
  - apply cut_none. now apply find_byte_None.
Qed.

(** ** UTF-8 decoding *)

Lemma byte_val_range (c : ascii) : 0 <= byte_val c < 256.
Proof.
  unfold byte_val. pose proof (N_ascii_bounded c). lia.
Qed.

Lemma byte_val_of (x : Z) : byte_val (byte_of x) = x mod 256.
Proof.
  unfold byte_val, byte_of.
  pose proof (Z.mod_pos_bound x 256 ltac:(lia)).
  rewrite N_ascii_embedding by lia. lia.
Qed.

Lemma byte_of_val (c : ascii) : byte_of (byte_val c) = c.
Proof.
  unfold byte_val, byte_of. pose proof (N_ascii_bounded c).
  rewrite Z.mod_small by lia. rewrite N2Z.id. apply ascii_N_embedding.
Qed.

Lemma land_shiftl_small (hi lo k : Z) :
  0 <= k -> 0 <= lo < 2 ^ k -> Z.land (Z.shiftl hi k) lo = 0.
Proof.
  intros Hk Hlo. apply Z.bits_inj'. intros n Hn.
  rewrite Z.land_spec, Z.bits_0.
  destruct (Z.lt_ge_cases n k) as [Hlt|Hge].
  - now rewrite Z.shiftl_spec_low.
  - rewrite <- (Z.mod_small lo (2 ^ k)) by lia.
    rewrite Z.mod_pow2_bits_high by lia. apply andb_false_r.
Qed.

Lemma lor_shiftl_add (hi lo k : Z) :
  0 <= k -> 0 <= lo < 2 ^ k -> Z.lor (Z.shiftl hi k) lo = hi * 2 ^ k + lo.
Proof.
  intros Hk Hlo. pose proof (Z.add_lor_land (Z.shiftl hi k) lo) as H.
  rewrite land_shiftl_small in H by assumption.
  rewrite Z.shiftl_mul_pow2 in * by assumption. lia.
Qed.

Lemma lor_const_add (base x k : Z) :
  0 <= k -> 0 <= x < 2 ^ k -> base mod 2 ^ k = 0 -> Z.lor base x = base + x.
Proof.
  intros Hk Hx Hb.
  assert (base = Z.shiftl (base / 2 ^ k) k) as ->.
  { rewrite Z.shiftl_mul_pow2 by assumption.
    pose proof (Z.div_mod base (2 ^ k)). lia. }
  rewrite lor_shiftl_add by assumption. rewrite Z.shiftl_mul_pow2 by assumption. lia.
Qed.

Lemma land_mask (x k : Z) : 0 <= k -> Z.land x (2 ^ k - 1) = x mod 2 ^ k.
Proof.
  intros Hk. rewrite <- Z.land_ones by assumption. f_equal.
  rewrite Z.ones_equiv. lia.
Qed.

Lemma land_63 (x : Z) : Z.land x 63 = x mod 64.
Proof. exact (land_mask x 6 ltac:(lia)). Qed.
Lemma land_31 (x : Z) : Z.land x 31 = x mod 32.
Proof. exact (land_mask x 5 ltac:(lia)). Qed.
Lemma land_15 (x : Z) : Z.land x 15 = x mod 16.
Proof. exact (land_mask x 4 ltac:(lia)). Qed.
Lemma land_7 (x : Z) : Z.land x 7 = x mod 8.
Proof. exact (land_mask x 3 ltac:(lia)). Qed.

Lemma lor_shiftl_6 (hi lo : Z) : 0 <= lo < 64 -> Z.lor (Z.shiftl hi 6) lo = hi * 64 + lo.
Proof. intros. exact (lor_shiftl_add hi lo 6 ltac:(lia) ltac:(change (2^6) with 64; lia)). Qed.

Lemma lor_shiftl_12 (hi lo : Z) : 0 <= lo < 4096 -> Z.lor (Z.shiftl hi 12) lo = hi * 4096 + lo.
Proof. intros. exact (lor_shiftl_add hi lo 12 ltac:(lia) ltac:(change (2^12) with 4096; lia)). Qed.

Lemma lor_shiftl_18 (hi lo : Z) : 0 <= lo < 262144 -> Z.lor (Z.shiftl hi 18) lo = hi * 262144 + lo.
Proof. intros. exact (lor_shiftl_add hi lo 18 ltac:(lia) ltac:(change (2^18) with 262144; lia)). Qed.

Lemma shiftl_6 (x : Z) : Z.shiftl x 6 = x * 64.
Proof. exact (Z.shiftl_mul_pow2 x 6 ltac:(lia)). Qed.
Lemma shiftl_12 (x : Z) : Z.shiftl x 12 = x * 4096.
Proof. exact (Z.shiftl_mul_pow2 x 12 ltac:(lia)). Qed.
Lemma shiftr_6 (x : Z) : Z.shiftr x 6 = x / 64.
Proof. exact (Z.shiftr_div_pow2 x 6 ltac:(lia)). Qed.
Lemma shiftr_12 (x : Z) : Z.shiftr x 12 = x / 4096.
Proof. exact (Z.shiftr_div_pow2 x 12 ltac:(lia)). Qed.
Lemma shiftr_18 (x : Z) : Z.shiftr x 18 = x / 262144.
Proof. exact (Z.shiftr_div_pow2 x 18 ltac:(lia)). Qed.

Lemma lor_tx (x : Z) : 0 <= x < 64 -> Z.lor 128 x = 128 + x.
Proof. intros. apply (lor_const_add 128 x 6); [lia | change (2^6) with 64; lia | reflexivity]. Qed.
Lemma lor_t2 (x : Z) : 0 <= x < 32 -> Z.lor 192 x = 192 + x.
Proof. intros. apply (lor_const_add 192 x 5); [lia | change (2^5) with 32; lia | reflexivity]. Qed.
Lemma lor_t3 (x : Z) : 0 <= x < 16 -> Z.lor 224 x = 224 + x.
Proof. intros. apply (lor_const_add 224 x 4); [lia | change (2^4) with 16; lia | reflexivity]. Qed.
Lemma lor_t4 (x : Z) : 0 <= x < 8 -> Z.lor 240 x = 240 + x.
Proof. intros. apply (lor_const_add 240 x 3); [lia | change (2^3) with 8; lia | reflexivity]. Qed.

Lemma lor_base_6 (base x : Z) : base mod 64 = 0 -> 0 <= x < 64 -> Z.lor base x = base + x.
Proof. intros. apply (lor_const_add base x 6); [lia | change (2^6) with 64; lia | assumption]. Qed.
Lemma lor_base_12 (base x : Z) : base mod 4096 = 0 -> 0 <= x < 4096 -> Z.lor base x = base + x.
Proof. intros. apply (lor_const_add base x 12); [lia | change (2^12) with 4096; lia | assumption]. Qed.
Lemma lor_base_18 (base x : Z) : base mod 262144 = 0 -> 0 <= x < 262144 -> Z.lor base x = base + x.
Proof. intros. apply (lor_const_add base x 18); [lia | change (2^18) with 262144; lia | assumption]. Qed.
Lemma shiftl_18 (x : Z) : Z.shiftl x 18 = x * 262144.
Proof. exact (Z.shiftl_mul_pow2 x 18 ltac:(lia)). Qed.

Ltac decide_tests :=
  repeat match goal with
  | |- context [?a <? ?b] => destruct (Z.ltb_spec a b); try lia
  | |- context [?a <=? ?b] => destruct (Z.leb_spec a b); try lia
  | |- context [?a =? ?b] => destruct (Z.eqb_spec a b); try lia
  end.

Ltac in_range :=
  match goal with
  | |- false = (?a <? ?b) || (?c <? ?d) =>
    symmetry; apply orb_false_iff; rewrite !Z.ltb_ge; lia
  | |- false = (?a <? ?b) => symmetry; apply Z.ltb_ge; lia
  | |- false = (?a <=? ?b) => symmetry; apply Z.leb_gt; lia
  | |- true = (?a <=? ?b) => symmetry; apply Z.leb_le; lia
  end.

Ltac arith := Z.div_mod_to_equations; lia.

Ltac bits_to_arith :=
  unfold mask2, mask3, mask4, maskx;
  rewrite ?land_7, ?land_15, ?land_31, ?land_63, ?shiftl_6, ?shiftl_12, ?shiftl_18;
  try rewrite (lor_base_18 (_ * 262144) (_ * 4096)) by arith;
  try rewrite (lor_base_12 (_ * 4096) (_ * 64)) by arith;
  try rewrite (lor_base_12 (_ + _) (_ * 64)) by arith;
  try rewrite (lor_base_6 (_ * 64)) by arith;
  try rewrite (lor_base_6 (_ + _)) by arith.

Ltac rune_error := cbn; unfold RuneError; lia.

Ltac next_byte t c b :=
  destruct t as [|c t]; [rune_error|];
  pose proof (byte_val_range c); set (b := byte_val c) in *.

Ltac accept_test :=
  match goal with
  | |- context [(?a <? ?lo) || (?hi <? ?a)] =>
    destruct (Z.ltb_spec a lo); [rune_error|];
    destruct (Z.ltb_spec hi a); [rune_error|]; cbn [orb]
  end.

Lemma decode_ascii (c : ascii) (t : string) :
  byte_val c < 128 -> DecodeRuneInString (String c t) = (byte_val c, 1%nat).
Proof.
  intros H. pose proof (byte_val_range c). unfold DecodeRuneInString.
  replace (first (byte_val c)) with as_; [reflexivity|].
  unfold first. decide_tests; reflexivity.
Qed.

Lemma decode_two (B0 B1 : Z) (t : string) :
  0xC2 <= B0 < 0xE0 -> 0x80 <= B1 <= 0xBF ->
  DecodeRuneInString (String (byte_of B0) (String (byte_of B1) t))
  = ((B0 - 0xC0) * 64 + (B1 - 0x80), 2%nat).
Proof.
  intros H0 H1. unfold DecodeRuneInString.
  rewrite !byte_val_of, !(Z.mod_small _ 256) by lia.
  replace (first B0) with s1 by (unfold first; decide_tests; reflexivity).
  change (as_ <=? s1) with false. cbv iota.
  change (Z.land s1 7) with 2. change (acceptRanges (Z.shiftr s1 4)) with (locb, hicb).
  rewrite !len_String. pose proof (len_nonneg t).
  unfold fst, snd, locb, hicb.
  replace (1 + (1 + len t) <? 2) with false by (symmetry; apply Z.ltb_ge; lia).
  replace ((B1 <? 128) || (191 <? B1)) with false
    by (symmetry; apply orb_false_iff; rewrite !Z.ltb_ge; lia).
  change (2 <=? 2) with true. cbv iota.
  f_equal. unfold mask2, maskx.
  rewrite land_31, land_63.
  rewrite lor_shiftl_6 by (apply Z.mod_pos_bound; lia).
  Z.div_mod_to_equations. lia.
Qed.

Lemma decode_three (B0 B1 B2 : Z) (t : string) :
  0xE0 <= B0 <= 0xEF -> 0x80 <= B1 <= 0xBF -> 0x80 <= B2 <= 0xBF ->
  (B0 = 0xE0 -> 0xA0 <= B1) -> (B0 = 0xED -> B1 <= 0x9F) ->
  DecodeRuneInString (String (byte_of B0) (String (byte_of B1) (String (byte_of B2) t)))
  = ((B0 - 0xE0) * 4096 + (B1 - 0x80) * 64 + (B2 - 0x80), 3%nat).
Proof.
  intros H0 H1 H2 Hlo Hhi. unfold DecodeRuneInString.
  rewrite !byte_val_of, !(Z.mod_small _ 256) by lia.
  rewrite !len_String. pose proof (len_nonneg t).
  assert (first B0 = s2 /\ B0 = 0xE0 \/ first B0 = s3 /\ B0 <> 0xE0 /\ B0 <> 0xED
          \/ first B0 = s4 /\ B0 = 0xED) as Hf
    by (unfold first; decide_tests; intuition lia).
  assert (forall sz lo hi, sz = 3 -> lo <= B1 <= hi ->
    (if 1 + (1 + (1 + len t)) <? sz then (RuneError, 1%nat) else
     if (B1 <? lo) || (hi <? B1) then (RuneError, 1%nat) else
     if sz <=? 2 then (Z.lor (Z.shiftl (Z.land B0 mask2) 6) (Z.land B1 maskx), 2%nat) else
     if (B2 <? locb) || (hicb <? B2) then (RuneError, 1%nat) else
     if sz <=? 3 then
       (Z.lor (Z.lor (Z.shiftl (Z.land B0 mask3) 12) (Z.shiftl (Z.land B1 maskx) 6))
              (Z.land B2 maskx), 3%nat)
     else (RuneError, 1%nat))
    = ((B0 - 0xE0) * 4096 + (B1 - 0x80) * 64 + (B2 - 0x80), 3%nat)) as Hbody.
  { intros sz lo hi -> Hb1. unfold locb, hicb, mask3, maskx.
    replace (1 + (1 + (1 + len t)) <? 3) with false by in_range.
    replace ((B1 <? lo) || (hi <? B1)) with false by in_range.
    replace ((B2 <? 128) || (191 <? B2)) with false by in_range.
    change (3 <=? 2) with false. change (3 <=? 3) with true. cbv iota.
    f_equal. rewrite land_15, !land_63, shiftl_6.
    rewrite lor_shiftl_12 by (Z.div_mod_to_equations; lia).
    rewrite lor_base_6 by (Z.div_mod_to_equations; lia).
    Z.div_mod_to_equations. lia. }
  destruct Hf as [[-> ->]|[(-> & ? & ?)|[-> ->]]].
  - apply (Hbody 3 0xA0 0xBF); lia.
  - apply (Hbody 3 0x80 0xBF); lia.
  - apply (Hbody 3 0x80 0x9F); lia.
Qed.

Lemma decode_lead_nonascii (c0 : ascii) (t0 : string) :
  128 <= byte_val c0 -> 128 <= fst (DecodeRuneInString (String c0 t0)).
Proof.
  intros H. pose proof (byte_val_range c0) as Hr. unfold DecodeRuneInString.
  set (b0 := byte_val c0) in *.
  assert (first b0 = xx
          \/ first b0 = s1 /\ 0xC2 <= b0 < 0xE0
          \/ (first b0 = s2 \/ (first b0 = s3 \/ first b0 = s4) /\ 0xE1 <= b0) /\ 0xE0 <= b0 <= 0xEF
          \/ (first b0 = s5 \/ (first b0 = s6 \/ first b0 = s7) /\ 0xF1 <= b0) /\ 0xF0 <= b0 <= 0xF4)
    as Hf
    by (unfold first, xx, as_, s1, s2, s3, s4, s5, s6, s7; decide_tests; intuition lia).
  cbv zeta.
  destruct Hf as [-> | [[-> Hb] | [[Hc Hb] | [Hc Hb]]]].
  - rune_error.
  - change (as_ <=? s1) with false. cbv iota.
    change (Z.land s1 7) with 2. change (acceptRanges (Z.shiftr s1 4)) with (locb, hicb).
    unfold fst at 2, snd, locb, hicb.
    destruct (_ <? 2); [rune_error|].
    next_byte t0 c1 b1. accept_test.
    change (2 <=? 2) with true. cbv iota. unfold fst.
    bits_to_arith. arith.
  - assert (exists lo hi, (as_ <=? first b0) = false /\ Z.land (first b0) 7 = 3
              /\ acceptRanges (Z.shiftr (first b0) 4) = (lo, hi)
              /\ 0x80 <= lo /\ hi <= 0xBF /\ (b0 < 0xE1 -> 0xA0 <= lo))
      as (lo & hi & -> & -> & -> & Hlo & Hhi & Hover).
    { destruct Hc as [->|[[->| ->] ?]].
      - exists 0xA0, 0xBF. repeat split; try reflexivity; lia.
      - exists 0x80, 0xBF. repeat split; try reflexivity; lia.
      - exists 0x80, 0x9F. repeat split; try reflexivity; lia. }
    unfold fst at 2, snd, locb, hicb.
    destruct (_ <? 3); [rune_error|].
    next_byte t0 c1 b1. accept_test.
    change (3 <=? 2) with false. cbv iota.
    next_byte t0 c2 b2. accept_test.
    change (3 <=? 3) with true. cbv iota. unfold fst.
    bits_to_arith. arith.
  - assert (exists lo hi, (as_ <=? first b0) = false /\ Z.land (first b0) 7 = 4
              /\ acceptRanges (Z.shiftr (first b0) 4) = (lo, hi)
              /\ 0x80 <= lo /\ hi <= 0xBF /\ (b0 < 0xF1 -> 0x90 <= lo))
      as (lo & hi & -> & -> & -> & Hlo & Hhi & Hover).
    { destruct Hc as [->|[[->| ->] ?]].
      - exists 0x90, 0xBF. repeat split; try reflexivity; lia.
      - exists 0x80, 0xBF. repeat split; try reflexivity; lia.
      - exists 0x80, 0x8F. repeat split; try reflexivity; lia. }
    unfold fst at 2, snd, locb, hicb.
    destruct (_ <? 4); [rune_error|].
    next_byte t0 c1 b1. accept_test.
    change (4 <=? 2) with false. cbv iota.
    next_byte t0 c2 b2. accept_test.
    change (4 <=? 3) with false. cbv iota.
    next_byte t0 c3 b3. accept_test.
    unfold fst.
    bits_to_arith. arith.
Qed.

(** ** Names and the index functions *)

Lemma notword_high (r : rune) : 128 <= r -> isNotWordChar r = true.
Proof.
  intros H. unfold isNotWordChar.
  change (byte_val "A") with 65. change (byte_val "Z") with 90.
  change (byte_val "a") with 97. change (byte_val "z") with 122.
  change (byte_val "_") with 95.
  apply negb_true_iff, orb_false_iff; split; [apply orb_false_iff; split|].
  - apply andb_false_iff; right. apply Z.leb_gt. lia.
  - apply andb_false_iff; right. apply Z.leb_gt. lia.
  - apply Z.eqb_neq. lia.
Qed.

Lemma name_byte_ascii (c : ascii) : is_name_byte c = true -> byte_val c < 128.
Proof.
  unfold is_name_byte. intros H.
  destruct (Z.lt_ge_cases (byte_val c) 128) as [|Hge]; [assumption|].
  rewrite (notword_high _ Hge) in H. discriminate.
Qed.

Lemma decode_head_notword (c : ascii) (t : string) :
  is_name_byte c = false -> isNotWordChar (fst (DecodeRuneInString (String c t))) = true.
Proof.
  intros H. destruct (Z.lt_ge_cases (byte_val c) 128) as [Hlt|Hge].
  - rewrite decode_ascii by assumption. unfold is_name_byte in H.
    now apply negb_false_iff in H.
  - apply notword_high. now apply decode_lead_nonascii.
Qed.

Lemma span_name_app (s : string) : fst (span_name s) ++ snd (span_name s) = s.
Proof.
  induction s as [|c s IH]; simpl; [reflexivity|].
  destruct (is_name_byte c); [|reflexivity].
  destruct (span_name s) as [name rest]. simpl in *. now rewrite IH.
Qed.

Lemma span_name_name (s : string) : all_bytes is_name_byte (fst (span_name s)) = true.
Proof.
  induction s as [|c s IH]; simpl; [reflexivity|].
  destruct (is_name_byte c) eqn:E; [|reflexivity].
  destruct (span_name s) as [name rest]. simpl in *. now rewrite E.
Qed.

Lemma span_name_rest (s : string) :
  match snd (span_name s) with
  | EmptyString => True
  | String c _ => is_name_byte c = false
  end.
Proof.
  induction s as [|c s IH]; simpl; [exact I|].
  destruct (is_name_byte c) eqn:E; [|exact E].
  destruct (span_name s) as [name rest]. exact IH.
Qed.

Lemma find_range_name (s : string) (i : nat) :
  fst <$> List.find (fun ic => isNotWordChar (snd ic)) (range_from s 0 i)
  = match snd (span_name s) with
    | EmptyString => None
    | String _ _ => Some (i + String.length (fst (span_name s)))%nat
    end.
Proof.
  revert i. induction s as [|c s IH]; intros i; [reflexivity|].
  cbn [range_from span_name].
  destruct (is_name_byte c) eqn:E.
  - rewrite decode_ascii by now apply name_byte_ascii.
    cbn [List.find snd Nat.pred]. unfold is_name_byte in E.
    apply negb_true_iff in E. rewrite E. rewrite IH.
    destruct (span_name s) as [name rest]. cbn [fst snd String.length].
    destruct rest; [reflexivity|]. f_equal. lia.
  - pose proof (decode_head_notword c s E) as Hd.
    destruct (DecodeRuneInString (String c s)) as [r size]. cbn [fst] in Hd.
    cbn [List.find snd fst]. rewrite Hd. cbn. f_equal. lia.
Qed.

Lemma IndexFunc_name (s : string) :
  IndexFunc s isNotWordChar
  = match snd (span_name s) with
    | EmptyString => -1
    | String _ _ => len (fst (span_name s))
    end.
Proof.
  unfold IndexFunc, range. pose proof (find_range_name s 0) as H.
  destruct (List.find _ _) as [[i r]|]; cbn in H;
    destruct (snd (span_name s)); try discriminate; [|reflexivity].
  inversion H; subst. reflexivity.
Qed.

(** ** The loop of [qprintf] and the scanner *)

Lemma render_lits (params : Params) (s : string) (toks : list token) (result : string) :
  render params (lits s ++ toks)%list result = render params toks (result ++ s).
Proof.
  revert result. induction s as [|c s IH]; intros result; simpl.
  - now rewrite app_empty_r.
  - rewrite IH, app_assoc. reflexivity.
Qed.

Lemma scan_no_colon (head rest : string) :
  no_colon head = true -> scan (head ++ rest) 0 = (lits head ++ scan rest 0)%list.
Proof.
  unfold no_colon. induction head as [|c head IH]; simpl; intros H; [reflexivity|].
  apply andb_true_iff in H as [Hc H]. apply negb_true_iff in Hc. rewrite Hc.
  now rewrite (IH H).
Qed.

Lemma scan_all_lits (s : string) : no_colon s = true -> scan s 0 = lits s.
Proof.
  intros H. pose proof (scan_no_colon s EmptyString H) as E.
  rewrite app_empty_r in E. rewrite E. cbn [scan]. apply app_nil_r.
Qed.

Lemma render_all_lits (params : Params) (s : string) (result : string) :
  render params (lits s) result = (result ++ s, None).
Proof.
  rewrite <- (app_nil_r (lits s)). rewrite render_lits. reflexivity.
Qed.

Lemma scan_skip (name rest : string) :
  scan (name ++ rest) (String.length name) = scan rest 0.
Proof. induction name as [|c name IH]; simpl; [now destruct rest | exact IH]. Qed.

Lemma scan_skip_all (name : string) : scan name (String.length name) = [].
Proof. induction name as [|c name IH]; simpl; [reflexivity | exact IH]. Qed.

Lemma span_name_nonempty (d : ascii) (s : string) :
  is_name_byte d = true ->
  exists name, fst (span_name (String d s)) = String d name.
Proof.
  intros H. simpl. rewrite H. destruct (span_name s) as [name rest]. now exists name.
Qed.

Lemma scan_colon_name (d : ascii) (s : string) :
  is_name_byte d = true ->
  scan (String ":" (String d s)) 0
  = Placeholder (fst (span_name (String d s)))
    :: scan (String d s) (String.length (fst (span_name (String d s)))).
Proof. intros H. change (scan (String ":" (String d s)) 0) with
  (if is_name_byte d then Placeholder (fst (span_name (String d s)))
    :: scan (String d s) (String.length (fst (span_name (String d s))))
   else Lit ":" :: Lit d :: scan s 0). now rewrite H. Qed.

Lemma scan_colon_other (d : ascii) (s : string) :
  is_name_byte d = false ->
  scan (String ":" (String d s)) 0 = Lit ":" :: Lit d :: scan s 0.
Proof. intros H. change (scan (String ":" (String d s)) 0) with
  (if is_name_byte d then Placeholder (fst (span_name (String d s)))
    :: scan (String d s) (String.length (fst (span_name (String d s))))
   else Lit ":" :: Lit d :: scan s 0). now rewrite H. Qed.

Section Loop.
Variable params : Params.

Lemma qprintf_loop_scan (fuel : nat) :
  forall (s result : string), (String.length s < fuel)%nat ->
  qprintf_loop fuel params s result = Done (render params (scan s 0) result).
Proof.
  induction fuel as [|fuel IH]; intros s result Hfuel; [lia|].
  cbn [qprintf_loop].
  destruct (IndexRune_colon s) as [Hnone | head rest Hs Hhead].
  - cbn [Z.eqb orb]. unfold WriteString.
    rewrite scan_all_lits by assumption. now rewrite render_all_lits.
  - pose proof (len_nonneg head) as Hh.
    replace (len head =? -1) with false by (symmetry; apply Z.eqb_neq; lia).
    cbn [orb]. subst s. rewrite len_app, len_String.
    rewrite scan_no_colon by assumption.
    destruct rest as [|d rest'].
    + replace (len head =? len head + (1 + len EmptyString) - 1) with true
        by (symmetry; apply Z.eqb_eq; unfold len; simpl; lia).
      unfold WriteString. change (scan ":" 0) with (lits ":"). rewrite <- (app_nil_r (lits ":")).
      rewrite !render_lits. cbn [render]. now rewrite app_assoc.
    + rewrite len_String. pose proof (len_nonneg rest') as Hr.
      replace (len head =? len head + (1 + (1 + len rest')) - 1) with false
        by (symmetry; apply Z.eqb_neq; lia).
      replace (head ++ String ":" (String d rest'))
        with ((head ++ ":") ++ String d rest') at 1 by now rewrite app_assoc.
      replace (len head + 1) with (len (head ++ ":"))
        by (rewrite len_app; reflexivity).
      rewrite byte_at_app. cbn [checked mbind run_bind].
      rewrite length_app in Hfuel. cbn [String.length] in Hfuel.
      destruct (isNotWordChar (byte_val d)) eqn:Hd.
      * rewrite scan_colon_other by (unfold is_name_byte; now rewrite Hd).
        replace (head ++ String ":" (String d rest'))
          with ((head ++ String ":" (String d EmptyString)) ++ rest')
          by now rewrite app_assoc.
        replace (len head + 2) with (len (head ++ String ":" (String d EmptyString)))
          by (rewrite len_app; reflexivity).
        rewrite slice_to_app, slice_from_app. cbn [checked mbind run_bind].
        rewrite IH by lia. unfold WriteString. rewrite render_lits.
        f_equal. cbn [render]. now rewrite !app_assoc.
      * rewrite scan_colon_name by (unfold is_name_byte; now rewrite Hd).
        rewrite slice_to_app. cbn [checked mbind run_bind].
        replace (head ++ String ":" (String d rest'))
          with ((head ++ ":") ++ String d rest') by now rewrite app_assoc.
        replace (len head + 1) with (len (head ++ ":"))
          by (rewrite len_app; reflexivity).
        rewrite slice_from_app. cbn [checked mbind run_bind].
        rewrite IndexFunc_name.
        set (rest := String d rest') in *.
        pose proof (span_name_app rest) as Happ.
        pose proof (span_name_rest rest) as Hrest.
        assert (1 <= String.length (fst (span_name rest)))%nat as Hne.
        { destruct (span_name_nonempty d rest') as [name' Hn];
            [unfold is_name_byte; now rewrite Hd|].
          unfold rest. rewrite Hn. simpl. lia. }
        unfold WriteString. rewrite render_lits. cbn [render].
        destruct (span_name rest) as [name rest2] eqn:Hspan. cbn [fst snd] in *.
        destruct rest2 as [|e rest2].
        -- change (-1 =? -1) with true. cbv iota. cbn [mbind run_bind].
           rewrite app_empty_r in Happ. subst name.
           destruct (params !! rest) as [v|]; [|reflexivity].
           destruct (toDbValue v) as [castedValue [err|]]; [reflexivity|].
           now rewrite scan_skip_all.
        -- pose proof (len_nonneg name).
           replace (len name =? -1) with false by (symmetry; apply Z.eqb_neq; lia).
           rewrite <- Happ at 1. rewrite slice_to_app. cbn [checked mbind run_bind].
           destruct (params !! name) as [v|]; [|reflexivity].
           destruct (toDbValue v) as [castedValue [err|]]; [reflexivity|].
           rewrite <- Happ at 1. rewrite slice_from_app. cbn [checked mbind run_bind].
           rewrite <- Happ. rewrite scan_skip. apply IH.
           assert (String.length rest = S (String.length rest')) as Hlen by reflexivity.
           rewrite <- Happ, length_app in Hlen. cbn [String.length] in *. lia.
Qed.

Lemma qprintf_scan (sql : string) :
  qprintf sql params = Done (render params (scan sql 0) EmptyString).
Proof. apply qprintf_loop_scan. lia. Qed.
End Loop.

Lemma scan_placeholders_names (s : string) (skip : nat) :
  Forall (fun name => name <> EmptyString /\ all_bytes is_name_byte name = true)
         (placeholders (scan s skip)).
Proof.
  remember (String.length s) as n eqn:Hn.
  assert (String.length s <= n)%nat as Hle by lia. clear Hn.
  revert s skip Hle. induction n as [|n IH]; intros s skip Hle.
  - destruct s; [constructor | simpl in Hle; lia].
  - destruct s as [|c s]; [constructor|]. simpl in Hle.
    destruct skip as [|k]; [|apply (IH s k); lia].
    cbn [scan]. destruct (is_colon c).
    + destruct s as [|d s]; [constructor|].
      destruct (is_name_byte d) eqn:Hd.
      * cbn [placeholders]. constructor; [|apply IH; simpl in *; lia].
        split; [|apply span_name_name].
        destruct (span_name_nonempty d s Hd) as [name ->]. discriminate.
      * cbn [placeholders]. apply IH. simpl in Hle. lia.
    + cbn [placeholders]. apply IH. lia.
Qed.

Lemma render_insert_other (params : Params) (k : string) (v : any)
    (toks : list token) (result : string) :
  Forall (fun name => name <> k) (placeholders toks) ->
  render (<[k := v]> params) toks result = render params toks result.
Proof.
  revert result. induction toks as [|[c|name] toks IH]; intros result H; cbn [render].
  - reflexivity.
  - apply IH, H.
  - cbn [placeholders] in H. inversion H as [|? ? Hne Htl]; subst.
    rewrite lookup_insert_ne by congruence.
    destruct (params !! name) as [w|]; [|reflexivity].
    destruct (toDbValue w) as [cv [e|]]; [reflexivity|]. now apply IH.
Qed.

Lemma span_name_exact (name rest : string) :
  all_bytes is_name_byte name = true ->
  match rest with EmptyString => True | String d _ => is_name_byte d = false end ->
  span_name (name ++ rest) = (name, rest).
Proof.
  intros Hname Hrest. induction name as [|c name IH]; simpl in *.
  - destruct rest as [|d rest]; [reflexivity|]. simpl. now rewrite Hrest.
  - apply andb_true_iff in Hname as [Hc Hname]. rewrite Hc, (IH Hname). reflexivity.
Qed.

Lemma scan_placeholder (name rest : string) :
  name <> EmptyString -> all_bytes is_name_byte name = true ->
  match rest with EmptyString => True | String d _ => is_name_byte d = false end ->
  scan (String ":" (name ++ rest)) 0 = Placeholder name :: scan rest 0.
Proof.
  intros Hne Hname Hrest. destruct name as [|c name]; [contradiction|].
  pose proof (span_name_exact _ _ Hname Hrest) as E.
  simpl in Hname. apply andb_true_iff in Hname as [Hc _].
  change (String c name ++ rest) with (String c (name ++ rest)) in *.
  rewrite scan_colon_name by assumption. rewrite E. cbn [fst].
  change (String c (name ++ rest)) with (String c name ++ rest).
  now rewrite scan_skip.
Qed.

Lemma digit_not_name (c : ascii) :
  byte_val "0" <= byte_val c <= byte_val "9" -> is_name_byte c = false.
Proof.
  intros H. unfold is_name_byte, isNotWordChar. apply negb_false_iff, negb_true_iff.
  change (byte_val "0") with 48 in H. change (byte_val "9") with 57 in H.
  change (byte_val "A") with 65. change (byte_val "Z") with 90.
  change (byte_val "a") with 97. change (byte_val "z") with 122.
  change (byte_val "_") with 95.
  apply orb_false_iff; split; [apply orb_false_iff; split|].
  - apply andb_false_iff; left. apply Z.leb_gt. lia.
  - apply andb_false_iff; left. apply Z.leb_gt. lia.
  - apply Z.eqb_neq. lia.
Qed.

(** ** Digits and placeholder names *)

(** C10: an ASCII digit is not a name character of the scanner.  The
    name looked up after a colon is the longest run of bytes in
    [A-Za-z_]: a template [head:name rest], where [head] has no colon
    and [rest] is empty or starts with a byte that is no letter and no
    underscore (a digit for one), is cut into the bytes of [head], the
    placeholder [name] and the tokens of [rest].  With [a] bound to [v],
    [:a1] renders as the encoding of [v] followed by [1].  A parameter
    whose name has a byte outside [A-Za-z_] is never looked up: the
    result is the same with or without it. *)
Theorem digits_end_placeholder_names :
  (forall c : ascii,
     byte_val "0" <= byte_val c <= byte_val "9" -> isNotWordChar (byte_val c) = true)
  /\ (forall (params : Params) (head name rest : string),
        no_colon head = true ->
        name <> EmptyString -> all_bytes is_name_byte name = true ->
        match rest with EmptyString => True | String d _ => is_name_byte d = false end ->
        qprintf (head ++ String ":" (name ++ rest)) params
        = Done (render params (lits head ++ Placeholder name :: scan rest 0) EmptyString))
  /\ (forall (v : any) (castedValue : string),
        toDbValue v = (castedValue, None) ->
        qprintf ":a1" {[ "a" := v ]} = Done (castedValue ++ "1", None))
  /\ (forall (sql : string) (params : Params) (name : string) (v : any),
        all_bytes is_name_byte name = false ->
        qprintf sql (<[name := v]> params) = qprintf sql params).
Proof.
  split; [|split; [|split]].
  - intros c H. apply digit_not_name in H. unfold is_name_byte in H.
    now apply negb_false_iff in H.
  - intros params head name rest Hhead Hne Hname Hrest.
    rewrite qprintf_scan, scan_no_colon by assumption.
    now rewrite scan_placeholder.
  - intros v castedValue Hv. rewrite qprintf_scan.
    change (scan ":a1" 0) with [Placeholder "a"; Lit "1"].
    cbn [render]. rewrite lookup_singleton_eq, Hv. reflexivity.
  - intros sql params name v Hname. rewrite !qprintf_scan. f_equal.
    apply render_insert_other.
    eapply Forall_impl; [apply scan_placeholders_names|].
    intros n [_ Hn] ->. rewrite Hn in Hname. discriminate.
Qed.

Lemma digits_end_placeholder_names_witness :
  qprintf ":a1" {[ "a" := Int 7 ]} = Done ("71", None)
  /\ qprintf ":a1, :a" (<["a1" := Int 3]> {[ "a" := Int 7 ]})
     = qprintf ":a1, :a" {[ "a" := Int 7 ]}.
Proof.
  destruct digits_end_placeholder_names as (_ & _ & H3 & H4).
  split; [apply (H3 (Int 7) "7"); reflexivity | apply H4; reflexivity].
Defined.

(** ** Bytes outside placeholders *)

Lemma template_of_scan (s : string) (skip : nat) :
  flatten (map token_text (scan s skip)) = drop_bytes skip s.
Proof.
  remember (String.length s) as n eqn:Hn.
  assert (String.length s <= n)%nat as Hle by lia. clear Hn.
  revert s skip Hle. induction n as [|n IH]; intros s skip Hle.
  - destruct s; [now destruct skip | simpl in Hle; lia].
  - destruct s as [|c s]; [now destruct skip|]. simpl in Hle.
    destruct skip as [|k]; [|apply (IH s k); lia].
    cbn [scan drop_bytes]. destruct (is_colon c) eqn:Hc.
    + apply Ascii.eqb_eq in Hc. subst c.
      destruct s as [|d s]; [reflexivity|].
      destruct (is_name_byte d) eqn:Hd.
      * cbn [map flatten fold_right token_text]. fold (flatten).
        change (fold_right String.append EmptyString) with flatten.
        rewrite IH by (simpl in *; lia).
        pose proof (span_name_app (String d s)) as E.
        set (name := fst (span_name (String d s))) in *.
        set (rest := snd (span_name (String d s))) in *.
        replace (drop_bytes (String.length name) (String d s)) with rest
          by (rewrite <- E; symmetry; apply drop_bytes_app).
        change (String ":" name ++ rest) with (String ":" (name ++ rest)).
        now rewrite E.
      * cbn [map flatten fold_right token_text].
        change (fold_right String.append EmptyString) with flatten.
        rewrite (IH s 0%nat) by (simpl in *; lia). reflexivity.
    + cbn [map flatten fold_right token_text].
      change (fold_right String.append EmptyString) with flatten.
      rewrite (IH s 0%nat) by lia. reflexivity.
Qed.

Lemma render_output (params : Params) (toks : list token) (result out : string) :
  render params toks result = (out, None) ->
  out = result ++ flatten (map (token_output params) toks).
Proof.
  revert result. induction toks as [|[c|name] toks IH]; intros result H; cbn [render] in H.
  - inversion H. simpl. now rewrite app_empty_r.
  - apply IH in H. rewrite H, app_assoc. reflexivity.
  - cbn [map flatten fold_right token_output].
    change (fold_right String.append EmptyString) with flatten.
    destruct (params !! name) as [v|]; [|discriminate].
    destruct (toDbValue v) as [cv [e|]]; [discriminate|].
    apply IH in H. rewrite H, app_assoc. reflexivity.
Qed.

Lemma render_no_placeholder (params : Params) (toks : list token) (result : string) :
  placeholders toks = [] ->
  render params toks result = (result ++ flatten (map token_text toks), None).
Proof.
  revert result. induction toks as [|[c|name] toks IH]; intros result H; cbn [render].
  - simpl. now rewrite app_empty_r.
  - rewrite IH by exact H. cbn [map flatten fold_right token_text].
    now rewrite app_assoc.
  - discriminate.
Qed.

Lemma scan_no_placeholder (s : string) (skip : nat) :
  colon_before_name s = false -> placeholders (scan s skip) = [].
Proof.
  remember (String.length s) as n eqn:Hn.
  assert (String.length s <= n)%nat as Hle by lia. clear Hn.
  revert s skip Hle. induction n as [|n IH]; intros s skip Hle H.
  - destruct s; [reflexivity | simpl in Hle; lia].
  - destruct s as [|c s]; [reflexivity|]. simpl in Hle.
    assert (colon_before_name s = false) as Hs.
    { simpl in H. destruct s; [reflexivity|]. now apply orb_false_iff in H. }
    destruct skip as [|k]; [|apply (IH s k); [lia | assumption]].
    cbn [scan]. destruct (is_colon c) eqn:Hc.
    + destruct s as [|d s]; [reflexivity|].
      simpl in H. rewrite Hc in H. apply orb_false_iff in H as [Hd H]. simpl in Hd.
      rewrite Hd. cbn [placeholders]. apply IH; [simpl in Hle; lia|].
      simpl in Hs. destruct s; [reflexivity|]. now apply orb_false_iff in Hs.
    + cbn [placeholders]. apply IH; [lia | assumption].
Qed.

(** C3: the template is the concatenation of its tokens, byte for
    byte, and when substitution succeeds the output is the
    concatenation, in the same order, of what stands for each token: the
    byte itself for a byte outside a placeholder, the encoding of the
    parameter for a placeholder.  A template in which the scanner finds
    no placeholder, and so any template in which no colon stands right
    before a name byte, comes back unchanged. *)
Theorem literal_bytes_pass_through (sql : string) (params : Params) :
  flatten (map token_text (scan sql 0)) = sql
  /\ (forall out : string,
        qprintf sql params = Done (out, None) ->
        out = flatten (map (token_output params) (scan sql 0)))
  /\ (placeholders (scan sql 0) = [] -> qprintf sql params = Done (sql, None))
  /\ (colon_before_name sql = false -> qprintf sql params = Done (sql, None)).
Proof.
  assert (flatten (map token_text (scan sql 0)) = sql) as Htext
    by apply (template_of_scan sql 0).
  assert (placeholders (scan sql 0) = [] -> qprintf sql params = Done (sql, None)) as Hid.
  { intros H. rewrite qprintf_scan, render_no_placeholder by assumption.
    now rewrite Htext. }
  repeat split; [exact Htext | | exact Hid |].
  - intros out H. rewrite qprintf_scan in H. inversion H as [H'].
    now apply render_output in H'.
  - intros H. apply Hid. now apply scan_no_placeholder.
Qed.

Lemma literal_bytes_pass_through_witness :
  qprintf "SELECT '12:30', a::text, b FROM t -- :" {[ "text" := Int 1 ]}
  = Done ("SELECT '12:30', a::text, b FROM t -- :", None)
  /\ "1: 'x'" = flatten (map (token_output {[ "a" := Int 1; "b" := String_ "x" ]})
                             (scan ":a: :b" 0)).
Proof.
  split.
  - destruct (literal_bytes_pass_through "SELECT '12:30', a::text, b FROM t -- :"
                {[ "text" := Int 1 ]}) as (_ & _ & H & _).
    apply H. reflexivity.
  - destruct (literal_bytes_pass_through ":a: :b" {[ "a" := Int 1; "b" := String_ "x" ]})
      as (_ & H & _).
    apply H. reflexivity.
Defined.

(** ** The scanner and the words of the specification *)

Lemma HasPrefix_empty (s : string) : HasPrefix s EmptyString = true.
Proof. now destruct s. Qed.

Lemma Contains_tail (c : ascii) (s sub : string) :
  Contains (String c s) sub = false -> Contains s sub = false.
Proof. cbn [Contains]. intros H. now apply orb_false_iff in H. Qed.

Lemma spec_scan_flag (s : string) (skip : nat) :
  match s with String c _ => is_colon c = false | EmptyString => True end ->
  spec_scan s true skip = spec_scan s false skip.
Proof.
  destruct s as [|c s]; [reflexivity|]. intros Hc.
  destruct skip; [|reflexivity]. cbn [spec_scan]. now rewrite Hc.
Qed.

Lemma name_byte_not_colon (d : ascii) : is_name_byte d = true -> is_colon d = false.
Proof.
  intros H. destruct (is_colon d) eqn:E; [|reflexivity].
  apply Ascii.eqb_eq in E. subst d. discriminate.
Qed.

Lemma scan_spec_scan (s : string) (skip : nat) :
  Contains s ":::" = false -> scan s skip = spec_scan s false skip.
Proof.
  remember (String.length s) as n eqn:Hn.
  assert (String.length s <= n)%nat as Hle by lia. clear Hn.
  revert s skip Hle. induction n as [|n IH]; intros s skip Hle H.
  - destruct s; [reflexivity | simpl in Hle; lia].
  - destruct s as [|c s]; [reflexivity|]. simpl in Hle.
    pose proof (Contains_tail _ _ _ H) as Hs.
    destruct skip as [|k]; [|apply (IH s k); [lia | assumption]].
    cbn [scan spec_scan negb]. rewrite andb_true_r.
    destruct (is_colon c) eqn:Hc; cbn [andb].
    + destruct s as [|d s]; [reflexivity|]. cbn [starts_with_name].
      destruct (is_name_byte d) eqn:Hd.
      * f_equal. apply IH; [simpl in *; lia | assumption].
      * f_equal. cbn [spec_scan]. rewrite andb_false_r. cbn [andb]. f_equal.
        pose proof (Contains_tail _ _ _ Hs) as Hs'.
        rewrite (IH s 0%nat) by (simpl in *; lia || assumption).
        destruct (is_colon d) eqn:Hd'; [|reflexivity].
        symmetry. apply spec_scan_flag.
        destruct s as [|e s]; [exact I|].
        destruct (is_colon e) eqn:He; [|reflexivity].
        apply Ascii.eqb_eq in Hc, Hd', He. subst c d e. cbn in H. rewrite HasPrefix_empty in H. discriminate H.
    + f_equal. apply IH; [lia | assumption].
Qed.

(** C2, as amended: a colon starts a placeholder when a name byte
    follows it and the scanner has not taken it together with the colon
    before it; the name is the longest run of name bytes.  A colon
    followed by a byte that is no name byte passes through together with
    that byte, and a colon at the end passes through.  For a template
    without three colons in a row this is the rule of the specification,
    a colon that is not preceded by another colon.  The two examples
    hold as stated. *)
Theorem placeholder_recognition :
  (forall (sql : string) (params : Params),
     Contains sql ":::" = false ->
     qprintf sql params = Done (spec_substitute sql params))
  /\ (forall (params : Params) (head : string) (d : ascii) (rest : string),
        no_colon head = true -> is_name_byte d = false ->
        qprintf (head ++ String ":" (String d rest)) params
        = Done (render params (scan rest 0) (head ++ String ":" (String d EmptyString))))
  /\ (forall (params : Params) (head : string),
        no_colon head = true ->
        qprintf (head ++ ":") params = Done (head ++ ":", None))
  /\ qprintf "'1'::int" {[ "int" := Int 1 ]} = Done ("'1'::int", None)
  /\ qprintf ":a, :a_b, :a b" {[ "a" := String_ "value_a"; "a_b" := String_ "value_b" ]}
     = Done ("'value_a', 'value_b', 'value_a' b", None).
Proof.
  split; [|split; [|split; [|split; reflexivity]]].
  - intros sql params H. rewrite qprintf_scan. unfold spec_substitute.
    now rewrite scan_spec_scan.
  - intros params head d rest Hhead Hd.
    rewrite qprintf_scan, scan_no_colon, scan_colon_other by assumption.
    rewrite render_lits. cbn [render]. now rewrite !app_assoc.
  - intros params head Hhead.
    rewrite qprintf_scan, scan_no_colon by assumption.
    change (scan ":" 0) with (lits ":"). rewrite render_lits, render_all_lits.
    reflexivity.
Qed.

Lemma placeholder_recognition_witness :
  qprintf "t.a::int = :a:" {[ "a" := Int 1 ]}
  = Done (spec_substitute "t.a::int = :a:" {[ "a" := Int 1 ]}).
Proof. apply (proj1 placeholder_recognition). reflexivity. Defined.

(** C2, as stated: a colon preceded by a colon never starts a
    placeholder.  In [:::a] the scanner takes the first two colons
    together and then reads [:a] as a placeholder. *)
Lemma triple_colon_is_substituted :
  qprintf ":::a" {[ "a" := String_ "v" ]} = Done ("::'v'", None)
  /\ spec_substitute ":::a" {[ "a" := String_ "v" ]} = (":::a", None)
  /\ qprintf ":::a" {[ "a" := String_ "v" ]}
     <> Done (spec_substitute ":::a" {[ "a" := String_ "v" ]}).
Proof.
  split; [reflexivity | split; [reflexivity|]].
  intros H. vm_compute in H. discriminate H.
Qed.

(** ** A placeholder without a parameter *)






(** ** UTF-8 encoding, and decoding what was encoded *)

Lemma decode_four (B0 B1 B2 B3 : Z) (t : string) :
  0xF0 <= B0 <= 0xF4 -> 0x80 <= B1 <= 0xBF -> 0x80 <= B2 <= 0xBF -> 0x80 <= B3 <= 0xBF ->
  (B0 = 0xF0 -> 0x90 <= B1) -> (B0 = 0xF4 -> B1 <= 0x8F) ->
  DecodeRuneInString
    (String (byte_of B0) (String (byte_of B1) (String (byte_of B2) (String (byte_of B3) t))))
  = ((B0 - 0xF0) * 262144 + (B1 - 0x80) * 4096 + (B2 - 0x80) * 64 + (B3 - 0x80), 4%nat).
Proof.
  intros H0 H1 H2 H3 Hlo Hhi. unfold DecodeRuneInString.
  rewrite !byte_val_of, !(Z.mod_small _ 256) by lia.
  rewrite !len_String. pose proof (len_nonneg t).
  assert (first B0 = s5 /\ B0 = 0xF0 \/ first B0 = s6 /\ B0 <> 0xF0 /\ B0 <> 0xF4
          \/ first B0 = s7 /\ B0 = 0xF4) as Hf
    by (unfold first; decide_tests; intuition lia).
  assert (forall sz lo hi, sz = 4 -> lo <= B1 <= hi ->
    (if 1 + (1 + (1 + (1 + len t))) <? sz then (RuneError, 1%nat) else
     if (B1 <? lo) || (hi <? B1) then (RuneError, 1%nat) else
     if sz <=? 2 then (Z.lor (Z.shiftl (Z.land B0 mask2) 6) (Z.land B1 maskx), 2%nat) else
     if (B2 <? locb) || (hicb <? B2) then (RuneError, 1%nat) else
     if sz <=? 3 then
       (Z.lor (Z.lor (Z.shiftl (Z.land B0 mask3) 12) (Z.shiftl (Z.land B1 maskx) 6))
              (Z.land B2 maskx), 3%nat)
     else
     if (B3 <? locb) || (hicb <? B3) then (RuneError, 1%nat) else
       (Z.lor (Z.lor (Z.lor (Z.shiftl (Z.land B0 mask4) 18)
                            (Z.shiftl (Z.land B1 maskx) 12))
                     (Z.shiftl (Z.land B2 maskx) 6))
              (Z.land B3 maskx), 4%nat))
    = ((B0 - 0xF0) * 262144 + (B1 - 0x80) * 4096 + (B2 - 0x80) * 64 + (B3 - 0x80), 4%nat))
    as Hbody.
  { intros sz lo hi -> Hb1. unfold locb, hicb.
    replace (1 + (1 + (1 + (1 + len t))) <? 4) with false by in_range.
    replace ((B1 <? lo) || (hi <? B1)) with false by in_range.
    replace ((B2 <? 128) || (191 <? B2)) with false by in_range.
    replace ((B3 <? 128) || (191 <? B3)) with false by in_range.
    change (4 <=? 2) with false. change (4 <=? 3) with false. cbv iota.
    f_equal. bits_to_arith. arith. }
  destruct Hf as [[-> ->]|[(-> & ? & ?)|[-> ->]]].
  - apply (Hbody 4 0x90 0xBF); lia.
  - apply (Hbody 4 0x80 0xBF); lia.
  - apply (Hbody 4 0x80 0x8F); lia.
Qed.

Lemma append_rune_1 (r : rune) :
  0 <= r <= 0x7F -> AppendRune r = bytes [r].
Proof.
  intros H. unfold AppendRune, rune1Max.
  replace ((0 <=? r) && (r <=? 127)) with true
    by (symmetry; apply andb_true_iff; rewrite !Z.leb_le; lia).
  unfold byte. now rewrite Z.mod_small by lia.
Qed.

Lemma append_rune_2 (r : rune) :
  0x80 <= r <= 0x7FF -> AppendRune r = bytes [0xC0 + r / 64; 0x80 + r mod 64].
Proof.
  intros H. unfold AppendRune, rune1Max, rune2Max.
  replace ((0 <=? r) && (r <=? 127)) with false
    by (symmetry; apply andb_false_iff; right; apply Z.leb_gt; lia).
  replace ((0 <=? r) && (r <=? 2047)) with true
    by (symmetry; apply andb_true_iff; rewrite !Z.leb_le; lia).
  unfold byte, t2, tx, maskx. rewrite shiftr_6, land_63.
  rewrite lor_t2 by arith. rewrite lor_tx by arith.
  f_equal. f_equal; [f_equal; arith | f_equal; f_equal; arith].
Qed.

Lemma append_rune_3 (r : rune) :
  0x800 <= r <= 0xFFFF -> ~ (0xD800 <= r <= 0xDFFF) ->
  AppendRune r = bytes [0xE0 + r / 4096; 0x80 + (r / 64) mod 64; 0x80 + r mod 64].
Proof.
  intros H Hs. unfold AppendRune, rune1Max, rune2Max, rune3Max, surrogateMin, surrogateMax.
  replace ((0 <=? r) && (r <=? 127)) with false
    by (symmetry; apply andb_false_iff; right; apply Z.leb_gt; lia).
  replace ((0 <=? r) && (r <=? 2047)) with false
    by (symmetry; apply andb_false_iff; right; apply Z.leb_gt; lia).
  replace ((0 <=? r) && (r <? 55296) || (57343 <? r) && (r <=? 65535)) with true
    by (symmetry; apply orb_true_iff; rewrite !andb_true_iff, !Z.leb_le, !Z.ltb_lt; lia).
  unfold byte, t3, tx, maskx. rewrite shiftr_6, shiftr_12, !land_63.
  rewrite lor_t3 by arith. rewrite !lor_tx by arith.
  f_equal. repeat (f_equal; try arith).
Qed.

Lemma append_rune_4 (r : rune) :
  0x10000 <= r <= 0x10FFFF ->
  AppendRune r = bytes [0xF0 + r / 262144; 0x80 + (r / 4096) mod 64;
                        0x80 + (r / 64) mod 64; 0x80 + r mod 64].
Proof.
  intros H. unfold AppendRune, rune1Max, rune2Max, rune3Max, surrogateMin, surrogateMax, MaxRune.
  replace ((0 <=? r) && (r <=? 127)) with false
    by (symmetry; apply andb_false_iff; right; apply Z.leb_gt; lia).
  replace ((0 <=? r) && (r <=? 2047)) with false
    by (symmetry; apply andb_false_iff; right; apply Z.leb_gt; lia).
  replace ((0 <=? r) && (r <? 55296) || (57343 <? r) && (r <=? 65535)) with false
    by (symmetry; apply orb_false_iff; rewrite !andb_false_iff, !Z.leb_gt, !Z.ltb_ge; lia).
  replace ((65535 <? r) && (r <=? 1114111)) with true
    by (symmetry; rewrite !andb_true_iff, !Z.leb_le, !Z.ltb_lt; lia).
  unfold byte, t4, tx, maskx. rewrite shiftr_6, shiftr_12, shiftr_18, !land_63.
  rewrite lor_t4 by arith. rewrite !lor_tx by arith.
  f_equal. repeat (f_equal; try arith).
Qed.

Lemma decode_append_rune (r : rune) (t : string) :
  ValidRune r = true ->
  DecodeRuneInString (AppendRune r ++ t) = (r, String.length (AppendRune r)).
Proof.
  unfold ValidRune, surrogateMin, surrogateMax, MaxRune. intros H.
  apply orb_true_iff in H. rewrite !andb_true_iff, !Z.leb_le, !Z.ltb_lt in H.
  destruct (Z.le_gt_cases r 0x7F) as [H1|H1];
    [|destruct (Z.le_gt_cases r 0x7FF) as [H2|H2];
      [|destruct (Z.le_gt_cases r 0xFFFF) as [H3|H3]]].
  - rewrite append_rune_1 by lia. cbn [bytes fold_right String.append String.length].
    rewrite decode_ascii; rewrite byte_val_of, Z.mod_small; try lia. reflexivity.
  - rewrite append_rune_2 by lia. cbn [bytes fold_right String.append String.length].
    rewrite decode_two by arith. f_equal. arith.
  - rewrite append_rune_3 by lia. cbn [bytes fold_right String.append String.length].
    rewrite decode_three by arith. f_equal. arith.
  - rewrite append_rune_4 by lia. cbn [bytes fold_right String.append String.length].
    rewrite decode_four by arith. f_equal. arith.
Qed.

(** ** The literal quoter *)

Lemma flatten_app (l1 l2 : list string) :
  flatten (l1 ++ l2) = flatten l1 ++ flatten l2.
Proof.
  induction l1 as [|s l1 IH]; [reflexivity|].
  cbn [flatten fold_right app]. fold (flatten (l1 ++ l2)). fold (flatten l1).
  now rewrite IH, app_assoc.
Qed.

Lemma utf8_app (l1 l2 : list rune) : utf8 (l1 ++ l2) = utf8 l1 ++ utf8 l2.
Proof. unfold utf8. now rewrite map_app, flatten_app. Qed.

Lemma utf8_cons (c : rune) (l : list rune) : utf8 (c :: l) = AppendRune c ++ utf8 l.
Proof. reflexivity. Qed.

Lemma append_rune_nonempty (r : rune) : exists b tl, AppendRune r = String b tl.
Proof.
  unfold AppendRune.
  repeat match goal with |- context [if ?c then _ else _] => destruct c end;
    cbn [bytes fold_right]; eauto.
Qed.

Lemma range_from_skip (head t : string) (i : nat) :
  range_from (head ++ t) (String.length head) i = range_from t 0 (i + String.length head).
Proof.
  revert i. induction head as [|c head IH]; intros i.
  - cbn [String.length String.append]. destruct t; [reflexivity|].
    now replace (i + 0)%nat with i by lia.
  - cbn [String.length String.append range_from]. rewrite IH. f_equal. lia.
Qed.

Lemma range_from_rune (c : rune) (t : string) (i : nat) :
  ValidRune c = true ->
  range_from (AppendRune c ++ t) 0 i
  = (i, c) :: range_from t 0 (i + String.length (AppendRune c)).
Proof.
  intros Hc. pose proof (decode_append_rune c t Hc) as Hd.
  destruct (append_rune_nonempty c) as (b & tl & E). rewrite E in *.
  cbn [String.append range_from] in *. rewrite Hd. cbn [String.length Nat.pred].
  rewrite range_from_skip. f_equal. f_equal. lia.
Qed.

Lemma range_utf8 (cps : list rune) (i : nat) :
  Forall (fun c => ValidRune c = true) cps ->
  map snd (range_from (utf8 cps) 0 i) = cps.
Proof.
  intros H. revert i. induction H as [|c cps Hc H IH]; intros i; [reflexivity|].
  rewrite utf8_cons, range_from_rune by assumption. cbn [map snd]. now rewrite IH.
Qed.

Lemma quoteLiteral_loop_runes (cs : list (nat * rune)) (b : string) (hasSlash : bool) :
  quoteLiteral_loop cs b hasSlash
  = (b ++ utf8 (flat_map doubled (map snd cs)),
     hasSlash || existsb is_backslash (map snd cs)).
Proof.
  revert b hasSlash. induction cs as [|[i c] cs IH]; intros b hasSlash.
  - cbn. now rewrite app_empty_r, orb_false_r.
  - cbn [quoteLiteral_loop map snd flat_map existsb]. unfold doubled at 1.
    unfold is_backslash at 1 2, is_quote at 1.
    destruct (Z.eqb_spec c (byte_val backslash)) as [->|Hb].
    + rewrite IH. unfold WriteString. cbn [orb]. rewrite utf8_app, <- app_assoc.
      f_equal. now rewrite orb_true_r.
    + destruct (Z.eqb_spec c (byte_val quote)) as [->|Hq].
      * rewrite IH. unfold WriteString. cbn [orb]. rewrite utf8_app, <- app_assoc.
        reflexivity.
      * rewrite IH. unfold WriteRune. cbn [orb]. rewrite utf8_app, <- app_assoc.
        f_equal. f_equal. unfold utf8. cbn. now rewrite app_empty_r.
Qed.

(** On any bytes, the result is the encoding of the quoted form of the
    runes the loop reads. *)
Lemma quoteLiteral_runes (s : string) :
  quoteLiteral s = utf8 (spec_quote (map snd (range s))).
Proof.
  unfold quoteLiteral. rewrite quoteLiteral_loop_runes.
  cbn [orb]. unfold spec_quote, WriteRune.
  change (AppendRune (byte_val "E")) with "E".
  change (AppendRune (byte_val quote)) with (String quote EmptyString).
  destruct (existsb is_backslash (map snd (range s))); cbn [negb]; rewrite !utf8_app.
  - change (utf8 [byte_val "E"]) with "E".
    change (utf8 [byte_val quote]) with (String quote EmptyString).
    now rewrite <- !app_assoc.
  - change (utf8 [byte_val quote]) with (String quote EmptyString).
    change (utf8 []) with EmptyString.
    rewrite <- !app_assoc. reflexivity.
Qed.


(** C1: for every Unicode string, a sequence of code points [cps]
    held in UTF-8, [quoteLiteral] returns the UTF-8 text of
    [spec_quote cps]: every single quote and every backslash doubled,
    the text enclosed in single quotes, and the marker [E] in front if
    and only if [cps] has a backslash.  The loop goes over the code
    points, not the bytes. *)
Theorem quoteLiteral_doubles_and_encloses (cps : list rune) :
  Forall (fun c => ValidRune c = true) cps ->
  quoteLiteral (utf8 cps) = utf8 (spec_quote cps).
Proof.
  intros H. unfold quoteLiteral, range.
  rewrite quoteLiteral_loop_runes, range_utf8 by assumption.
  cbn [orb]. unfold spec_quote, WriteRune.
  destruct (existsb is_backslash cps); cbn [negb]; rewrite !utf8_app.
  - change (AppendRune (byte_val "E")) with "E".
    change (AppendRune (byte_val quote)) with (String quote EmptyString).
    change (utf8 [byte_val "E"]) with "E".
    change (utf8 [byte_val quote]) with (String quote EmptyString).
    now rewrite <- !app_assoc.
  - change (AppendRune (byte_val "E")) with "E".
    change (AppendRune (byte_val quote)) with (String quote EmptyString).
    change (utf8 [byte_val quote]) with (String quote EmptyString).
    change (utf8 []) with EmptyString.
    rewrite <- !app_assoc. reflexivity.
Qed.

Lemma quoteLiteral_doubles_and_encloses_witness :
  quoteLiteral (utf8 [0x69; 0x74; 0x27; 0x73; 0x20; 0xE9; 0x5C; 0x20AC; 0x1F600])
  = utf8 (spec_quote [0x69; 0x74; 0x27; 0x73; 0x20; 0xE9; 0x5C; 0x20AC; 0x1F600]).
Proof.
  apply quoteLiteral_doubles_and_encloses.
  repeat constructor.
Defined.

(** A byte that is not valid UTF-8 is not copied: the loop reads it as
    [RuneError] and writes the encoding of U+FFFD. *)
Example quoteLiteral_invalid_byte :
  quoteLiteral (bytes [0x61; 0xFF]) = bytes [0x27; 0x61; 0xEF; 0xBF; 0xBD; 0x27].
Proof. reflexivity. Qed.

(** ** The value encoder *)

(** A pointer that is not nil is encoded as the value it points to:
    [return toDbValue( *value)]. *)
Lemma toDbValue_deref :
  (forall v, toDbValue (StringPtr (Some v)) = toDbValue (String_ v))
  /\ (forall v, toDbValue (IntPtr (Some v)) = toDbValue (Int v))
  /\ (forall v, toDbValue (Float64Ptr (Some v)) = toDbValue (Float64 v))
  /\ (forall v, toDbValue (BoolPtr (Some v)) = toDbValue (Bool v))
  /\ (forall v, toDbValue (DecimalPtr (Some v)) = toDbValue (Decimal_ v))
  /\ (forall v, toDbValue (TimePtr (Some v)) = toDbValue (Time_ v)).
Proof. repeat split. Qed.

Lemma qprintf_returns (sql : string) (params : Params) :
  exists r, qprintf sql params = Done r.
Proof. rewrite qprintf_scan. eauto. Qed.




Lemma toDbValue_elements_all (vs : list any) (strs e : list string) :
  Forall2 (fun v s => toDbValue v = (s, None)) vs strs ->
  toDbValue_elements toDbValue vs e = ((e ++ strs)%list, None).
Proof.
  intros H. revert e. induction H as [|v s vs strs Hv H IH]; intros e; cbn.
  - now rewrite app_nil_r.
  - rewrite Hv, IH, <- List.app_assoc. reflexivity.
Qed.

Lemma toDbValue_elements_error (before : list any) (v : any) (after : list any)
    (strs e : list string) (text : string) (err : error) :
  Forall2 (fun v s => toDbValue v = (s, None)) before strs ->
  toDbValue v = (text, Some err) ->
  snd (toDbValue_elements toDbValue (before ++ v :: after)%list e) = Some err.
Proof.
  intros H Hv. revert e. induction H as [|w s ws strs Hw H IH]; intros e; cbn.
  - now rewrite Hv.
  - rewrite Hw. apply IH.
Qed.

(** C6: a list parameter is encoded element by element, each by
    [toDbValue] itself, and the texts are joined with a comma and a
    space; the first element that fails to encode gives the error of the
    whole.  The empty list is encoded as the empty text.  With
    [xs = [1, 2, 3, nil, as]] the template [WHERE field IN (:xs)] gives
    [WHERE field IN (1, 2, 3, NULL, 'as')]. *)
Theorem comma_list_joins_elements :
  (forall (l : option (list any)) (strs : list string),
     Forall2 (fun v s => toDbValue v = (s, None)) (elems l) strs ->
     toDbValue (CommaListParam l) = (Join strs ", ", None))
  /\ (forall (before : list any) (v : any) (after : list any) (strs : list string)
             (text : string) (err : error),
        Forall2 (fun v s => toDbValue v = (s, None)) before strs ->
        toDbValue v = (text, Some err) ->
        toDbValue (CommaListParam (Some (before ++ v :: after)%list)) = (EmptyString, Some err))
  /\ toDbValue (CommaListParam (Some [])) = (EmptyString, None)
  /\ qprintf "WHERE field IN (:xs)"
       {[ "xs" := CommaListParam (Some [Int 1; Int 2; Int 3; Nil; String_ "as"]) ]}
     = Done ("WHERE field IN (1, 2, 3, NULL, 'as')", None).
Proof.
  split; [|split; [|split; reflexivity]].
  - intros [vs|] strs H; cbn [elems] in H; cbn [toDbValue].
    + now rewrite (toDbValue_elements_all vs strs []).
    + inversion H. reflexivity.
  - intros before v after strs text err H Hv. cbn [toDbValue].
    pose proof (toDbValue_elements_error before v after strs [] text err H Hv) as E.
    destruct (toDbValue_elements toDbValue (before ++ v :: after)%list []) as [e o].
    cbn in E. now subst o.
Qed.

Lemma comma_list_joins_elements_witness :
  toDbValue (CommaListParam (Some [Int 1; Nil; String_ "as"])) = (Join ["1"; "NULL"; "'as'"] ", ", None)
  /\ toDbValue (CommaListParam (Some [Int 1; Other {| json_Marshal := json_error "json: unsupported type: chan int" |}; Nil]))
     = (EmptyString, Some (errorString "json: unsupported type: chan int")).
Proof.
  destruct comma_list_joins_elements as (H1 & H2 & _).
  split.
  - apply H1. repeat constructor.
  - apply (H2 [Int 1] _ [Nil] ["1"] EmptyString); [repeat constructor | reflexivity].
Defined.

(** ** The statement executor *)

Lemma is_ErrNoRows_false (e : error) : e <> ErrNoRows -> is_ErrNoRows e = false.
Proof. destruct e; [contradiction | reflexivity | reflexivity]. Qed.

(** Rendering fails: the operation returns at once. *)
Lemma render_failure_returns (json_Unmarshal : string -> option error)
    (ctx : Context) (db : Queryable) (sql : string) (params : Params)
    (text : string) (err : error) :
  qprintf sql params = Done (text, Some err) ->
  Exec ctx db sql params = Ret (None, Some (Error_ err sql params))
  /\ Query ctx db sql params = Ret (None, Some (Error_ err sql params))
  /\ QueryRow ctx db sql params = Ret (None, Some (Error_ err sql params))
  /\ QueryRowAndScan ctx db sql params = Ret (Some (Error_ err sql params))
  /\ QueryJSONRowIntoStruct json_Unmarshal ctx db sql params
     = Ret (Some (Error_ err sql params))
  /\ QueryRowIntoStruct ctx db sql params = Ret (Some (Error_ err sql params))
  /\ QueryRowsIntoSlice ctx db sql params = Ret (None, Some (Error_ err sql params)).
Proof.
  intros H.
  unfold QueryRowAndScan, QueryJSONRowIntoStruct, QueryRowIntoStruct, QueryRowsIntoSlice,
    Exec, Query, QueryRow.
  rewrite H. repeat split.
Qed.

(** Rendering succeeds: the operation makes its one call. *)
Lemma rendered_statement_is_sent (json_Unmarshal : string -> option error)
    (answer : forall X, call X -> X)
    (ctx : Context) (db : Queryable) (sql : string) (params : Params) (query : string) :
  qprintf sql params = Done (query, None) ->
  run_answers answer (Exec ctx db sql params)
  = Some (match answer _ (ExecContext db ctx query) with
          | (_, Some e) => (None, Some (Error_ e sql params))
          | (res, None) => (res, None)
          end)
  /\ run_answers answer (Query ctx db sql params)
     = Some (match answer _ (QueryContext db ctx query) with
             | (_, Some e) => (None, Some (Error_ e sql params))
             | (rows, None) => (rows, None)
             end)
  /\ run_answers answer (QueryRow ctx db sql params)
     = Some (Some (answer _ (QueryRowContext db ctx query)), None)
  /\ run_answers answer (QueryRowAndScan ctx db sql params)
     = Some (match Scan_err (answer _ (QueryRowContext db ctx query)) with
             | Some e => if is_ErrNoRows e then Some e else Some (Error_ e sql params)
             | None => None
             end)
  /\ run_answers answer (QueryJSONRowIntoStruct json_Unmarshal ctx db sql params)
     = Some (let row := answer _ (QueryRowContext db ctx query) in
             match Scan_err row with
             | Some e => if is_ErrNoRows e then Some e else Some (Error_ e sql params)
             | None =>
               match json_Unmarshal (Scan_bytes row) with
               | Some e => Some (Error_ e sql params)
               | None => None
               end
             end).
Proof.
  intros H.
  unfold QueryRowAndScan, QueryJSONRowIntoStruct, Exec, Query, QueryRow.
  rewrite H. cbn -[is_ErrNoRows].
  repeat split.
  - destruct (answer _ (ExecContext db ctx query)) as [res [e|]]; reflexivity.
  - destruct (answer _ (QueryContext db ctx query)) as [rows [e|]]; reflexivity.
  - destruct (Scan_err (answer _ (QueryRowContext db ctx query))) as [e|]; [|reflexivity].
    destruct (is_ErrNoRows e); reflexivity.
  - destruct (Scan_err (answer _ (QueryRowContext db ctx query))) as [e|].
    + destruct (is_ErrNoRows e); reflexivity.
    + destruct (json_Unmarshal _); reflexivity.
Qed.

Lemma rows_operations (answer : forall X, call X -> X)
    (ctx : Context) (db : Queryable) (sql : string) (params : Params) (query : string) :
  qprintf sql params = Done (query, None) ->
  run_answers answer (QueryRowIntoStruct ctx db sql params)
  = match answer _ (QueryContext db ctx query) with
    | (_, Some e) => Some (Some (Error_ e sql params))
    | (None, None) => None
    | (Some rows, None) =>
      Some (match pending rows with
            | [] => Some ErrNoRows
            | r :: _ =>
              match sqlstruct_err r with
              | Some e => Some (Error_ e sql params)
              | None => None
              end
            end)
    end
  /\ run_answers answer (QueryRowsIntoSlice ctx db sql params)
     = match answer _ (QueryContext db ctx query) with
       | (_, Some e) => Some (None, Some (Error_ e sql params))
       | (None, None) => None
       | (Some rows, None) => Some (QueryRowsIntoSlice_loop sql params (pending rows) [])
       end.
Proof.
  intros H. unfold QueryRowIntoStruct, QueryRowsIntoSlice, Query.
  rewrite H. cbn.
  destruct (answer _ (QueryContext db ctx query)) as [[rows|] [e|]]; cbn; try (split; reflexivity).
  split; [|reflexivity].
  destruct (pending rows) as [|r rest]; [reflexivity|].
  destruct (sqlstruct_err r); reflexivity.
Qed.

Lemma QueryRowsIntoSlice_loop_error (sql : string) (params : Params)
    (before : list RawRow) (r : RawRow) (after : list RawRow) (v : list string) (e : error) :
  Forall (fun r' => sqlstruct_err r' = None) before ->
  sqlstruct_err r = Some e ->
  QueryRowsIntoSlice_loop sql params (before ++ r :: after) v
  = (None, Some (Error_ e sql params)).
Proof.
  intros Hb Hr. revert v. induction Hb as [|r' before Hr' Hb IH]; intros v; cbn.
  - now rewrite Hr.
  - rewrite Hr'. apply IH.
Qed.

(** C7, as amended: when rendering fails, every operation returns
    without a call to the connection, and the error is the render error
    wrapped with the template and the parameters.  When the statement
    was rendered, [Exec] and [Query] return any error of the connection
    wrapped, [sql.ErrNoRows] included, and so do the operations built on
    [Query]; [QueryRow] returns the row handle.  The operations that
    read a row return [sql.ErrNoRows] as it is: [QueryRowAndScan] and
    [QueryJSONRowIntoStruct] when [Scan] reports it, any other error of
    [Scan] and an error of the JSON decoder being wrapped;
    [QueryRowIntoStruct] when there is no first row, an error of the row
    mapper being wrapped, as it is in [QueryRowsIntoSlice]. *)
Theorem executor_error_wrapping (json_Unmarshal : string -> option error)
    (answer : forall X, call X -> X)
    (ctx : Context) (db : Queryable) (sql : string) (params : Params) :
  (forall (text : string) (err : error),
     qprintf sql params = Done (text, Some err) ->
     Exec ctx db sql params = Ret (None, Some (Error_ err sql params))
     /\ Query ctx db sql params = Ret (None, Some (Error_ err sql params))
     /\ QueryRow ctx db sql params = Ret (None, Some (Error_ err sql params))
     /\ QueryRowAndScan ctx db sql params = Ret (Some (Error_ err sql params))
     /\ QueryJSONRowIntoStruct json_Unmarshal ctx db sql params
        = Ret (Some (Error_ err sql params))
     /\ QueryRowIntoStruct ctx db sql params = Ret (Some (Error_ err sql params))
     /\ QueryRowsIntoSlice ctx db sql params = Ret (None, Some (Error_ err sql params)))
  /\ (forall query : string,
        qprintf sql params = Done (query, None) ->
        (forall res e,
           answer _ (ExecContext db ctx query) = (res, Some e) ->
           run_answers answer (Exec ctx db sql params)
           = Some (None, Some (Error_ e sql params)))
        /\ (forall rows e,
              answer _ (QueryContext db ctx query) = (rows, Some e) ->
              run_answers answer (Query ctx db sql params)
              = Some (None, Some (Error_ e sql params))
              /\ run_answers answer (QueryRowIntoStruct ctx db sql params)
                 = Some (Some (Error_ e sql params))
              /\ run_answers answer (QueryRowsIntoSlice ctx db sql params)
                 = Some (None, Some (Error_ e sql params)))
        /\ run_answers answer (QueryRow ctx db sql params)
           = Some (Some (answer _ (QueryRowContext db ctx query)), None)
        /\ (Scan_err (answer _ (QueryRowContext db ctx query)) = Some ErrNoRows ->
            run_answers answer (QueryRowAndScan ctx db sql params) = Some (Some ErrNoRows)
            /\ run_answers answer (QueryJSONRowIntoStruct json_Unmarshal ctx db sql params)
               = Some (Some ErrNoRows))
        /\ (forall e,
              Scan_err (answer _ (QueryRowContext db ctx query)) = Some e ->
              e <> ErrNoRows ->
              run_answers answer (QueryRowAndScan ctx db sql params)
              = Some (Some (Error_ e sql params))
              /\ run_answers answer (QueryJSONRowIntoStruct json_Unmarshal ctx db sql params)
                 = Some (Some (Error_ e sql params)))
        /\ (forall e,
              Scan_err (answer _ (QueryRowContext db ctx query)) = None ->
              json_Unmarshal (Scan_bytes (answer _ (QueryRowContext db ctx query))) = Some e ->
              run_answers answer (QueryJSONRowIntoStruct json_Unmarshal ctx db sql params)
              = Some (Some (Error_ e sql params)))
        /\ (forall rows,
              answer _ (QueryContext db ctx query) = (Some rows, None) ->
              pending rows = [] ->
              run_answers answer (QueryRowIntoStruct ctx db sql params)
              = Some (Some ErrNoRows))
        /\ (forall rows r rest e,
              answer _ (QueryContext db ctx query) = (Some rows, None) ->
              pending rows = r :: rest ->
              sqlstruct_err r = Some e ->
              run_answers answer (QueryRowIntoStruct ctx db sql params)
              = Some (Some (Error_ e sql params)))
        /\ (forall rows before r after e,
              answer _ (QueryContext db ctx query) = (Some rows, None) ->
              pending rows = (before ++ r :: after)%list ->
              Forall (fun r' => sqlstruct_err r' = None) before ->
              sqlstruct_err r = Some e ->
              run_answers answer (QueryRowsIntoSlice ctx db sql params)
              = Some (None, Some (Error_ e sql params)))).
Proof.
  split.
  - intros text err H. now apply render_failure_returns with text.
  - intros query H.
    destruct (rendered_statement_is_sent json_Unmarshal answer ctx db sql params query H)
      as (HExec & HQuery & HRow & HScan & HJSON).
    destruct (rows_operations answer ctx db sql params query H) as (HStruct & HSlice).
    rewrite HExec, HQuery, HRow, HScan, HJSON, HStruct, HSlice. cbv zeta.
    repeat match goal with |- _ /\ _ => split end.
    + intros res e ->. reflexivity.
    + intros rows e ->. destruct rows; repeat split.
    + reflexivity.
    + intros ->. split; reflexivity.
    + intros e -> He. rewrite is_ErrNoRows_false by assumption. split; reflexivity.
    + intros e -> ->. reflexivity.
    + intros rows -> ->. reflexivity.
    + intros rows r rest e -> -> ->. reflexivity.
    + intros rows before r after e -> -> Hb Hr.
      now rewrite (QueryRowsIntoSlice_loop_error sql params before r after [] e).
Qed.

Lemma executor_error_wrapping_witness :
  Exec Background sql_DB "DELETE FROM t WHERE id = :id" ∅
  = Ret (None, Some (Error_ (errorString "parameter id is missing")
                            "DELETE FROM t WHERE id = :id" ∅))
  /\ run_answers answer_ErrNoRows
       (QueryRowAndScan Background sql_DB "SELECT a FROM t WHERE id = :id" {[ "id" := Int 1 ]})
     = Some (Some ErrNoRows).
Proof.
  split.
  - apply (proj1 (executor_error_wrapping (fun _ => None) answer_ErrNoRows Background sql_DB
                    "DELETE FROM t WHERE id = :id" ∅) EmptyString).
    reflexivity.
  - assert (qprintf "SELECT a FROM t WHERE id = :id" {[ "id" := Int 1 ]}
            = Done ("SELECT a FROM t WHERE id = 1", None)) as E by reflexivity.
    destruct (proj2 (executor_error_wrapping (fun _ => None) answer_ErrNoRows Background
                       sql_DB "SELECT a FROM t WHERE id = :id" {[ "id" := Int 1 ]})
                    "SELECT a FROM t WHERE id = 1" E)
      as (_ & _ & _ & H & _).
    apply H. reflexivity.
Defined.

(** C7, as stated: every operation returns [sql.ErrNoRows] as it is.
    [Exec] and [Query] wrap it like any other error of the
    connection. *)
Lemma Exec_wraps_ErrNoRows :
  run_answers answer_ErrNoRows
    (Exec Background sql_DB "DELETE FROM t WHERE id = :id" {[ "id" := Int 1 ]})
  = Some (None, Some (Error_ ErrNoRows "DELETE FROM t WHERE id = :id" {[ "id" := Int 1 ]}))
  /\ run_answers answer_ErrNoRows
       (Query Background sql_DB "SELECT a FROM t WHERE id = :id" {[ "id" := Int 1 ]})
     = Some (None, Some (Error_ ErrNoRows "SELECT a FROM t WHERE id = :id"
                                {[ "id" := Int 1 ]}))
  /\ Error_ ErrNoRows "DELETE FROM t WHERE id = :id" {[ "id" := Int 1 ]} <> ErrNoRows.
Proof. split; [reflexivity | split; [reflexivity | discriminate]]. Qed.

(** ** The migration runner *)

(** The statement that records the version: [Exec] renders it with
    the decimal text of [latest], and the connection reads the number
    back from the statement. *)
Lemma int_of_string_Itoa (n : Z) : Z.of_int <$> NilZero.int_of_string (Itoa n) = Some n.
Proof.
  unfold Itoa. rewrite NilZero.isi.
  - cbn. now rewrite DecimalZ.of_to.
  - destruct n; cbn; try discriminate. intros [= H]. now apply DecimalPos.Unsigned.to_uint_nonnil in H.
  - destruct n; cbn; try discriminate. intros [= H]. now apply DecimalPos.Unsigned.to_uint_nonnil in H.
Qed.

Lemma parse_update_Itoa (n : Z) : parse_update (update_prefix ++ Itoa n) = Some n.
Proof. unfold parse_update. cbn. rewrite HasPrefix_empty. apply int_of_string_Itoa. Qed.

Lemma qprintf_update (n : Z) :
  qprintf "UPDATE migrations SET version = :latest" {[ "latest" := Int n ]}
  = Done (update_prefix ++ Itoa n, None).
Proof.
  rewrite qprintf_scan.
  change (scan "UPDATE migrations SET version = :latest" 0)
    with (lits update_prefix ++ [Placeholder "latest"])%list.
  rewrite render_lits. cbn [render].
  rewrite lookup_singleton. cbn. reflexivity.
Qed.

Lemma Exec_update (ctx : Context) (n : Z) :
  Exec ctx sql_Tx "UPDATE migrations SET version = :latest" {[ "latest" := Int n ]}
  = ('(res, err) ← perform (ExecContext sql_Tx ctx (update_prefix ++ Itoa n));
     if bool_decide (err ≠ None)
     then Ret (None, wrapError err "UPDATE migrations SET version = :latest"
                       {[ "latest" := Int n ]})
     else Ret (res, None)).
Proof. unfold Exec. rewrite qprintf_update. reflexivity. Qed.


Section Runner.
Variable ddl : string -> Database -> Database + error.
Variable begin_error commit_error : option error.

Lemma interp_bind {A B} (p : prog A) (k : A -> prog B) (conn : Conn) :
  interp ddl begin_error commit_error (p ≫= k) conn
  = match interp ddl begin_error commit_error p conn with
    | Some (a, conn') => interp ddl begin_error commit_error (k a) conn'
    | None => None
    end.
Proof.
  revert conn. induction p as [a|X c k' IH|]; intros conn; cbn; [reflexivity| |reflexivity].
  destruct (handler ddl begin_error commit_error c conn) as [x conn']. apply IH.
Qed.

(** The version [Run] starts from, read outside the transaction. *)
Lemma getLatestVersion_reads (conn : Conn) :
  interp ddl begin_error commit_error getLatestVersion conn
  = Some (match catalog (committed conn) with
          | Some (v :: _) => (v, None)
          | _ => (0, None)
          end, conn).
Proof.
  unfold getLatestVersion. cbn. unfold select_version.
  destruct (catalog (committed conn)) as [[|v rows]|]; reflexivity.
Qed.

Lemma Run_loop_break (rest : list Migration) (latest : Z) (e : error) :
  Run_loop rest latest (Some e) = Ret (latest, Some e).
Proof. now destruct rest. Qed.

Lemma Run_loop_skip (m : Migration) (rest : list Migration) (latest : Z) (conn : Conn) :
  Version m <= latest ->
  interp ddl begin_error commit_error (Run_loop (m :: rest) latest None) conn
  = interp ddl begin_error commit_error (Run_loop rest latest None) conn.
Proof.
  intros H. cbn [Run_loop]. cbn [bool_decide decide_rel].
  replace (Version m >? latest) with false by (symmetry; rewrite Z.gtb_ltb; apply Z.ltb_ge; lia).
  reflexivity.
Qed.

Lemma Run_loop_applies (m : Migration) (rest : list Migration) (latest : Z)
    (conn : Conn) (d d' : Database) :
  latest < Version m -> transaction conn = Some d -> ddl (Sql m) d = inl d' ->
  interp ddl begin_error commit_error (Run_loop (m :: rest) latest None) conn
  = interp ddl begin_error commit_error (Run_loop rest (Version m) None) (after_exec conn (Sql m) d').
Proof.
  intros H Htx Hddl. cbn [Run_loop].
  replace (Version m >? latest) with true by (symmetry; rewrite Z.gtb_ltb; apply Z.ltb_lt; lia).
  cbn. rewrite Htx, Hddl. reflexivity.
Qed.

Lemma Run_loop_fails (m : Migration) (rest : list Migration) (latest : Z)
    (conn : Conn) (d : Database) (e : error) :
  latest < Version m -> transaction conn = Some d -> ddl (Sql m) d = inr e ->
  interp ddl begin_error commit_error (Run_loop (m :: rest) latest None) conn
  = Some ((Version m, Some e), after_exec conn (Sql m) d).
Proof.
  intros H Htx Hddl. cbn [Run_loop].
  replace (Version m >? latest) with true by (symmetry; rewrite Z.gtb_ltb; apply Z.ltb_lt; lia).
  cbn. rewrite Htx, Hddl. rewrite Run_loop_break. reflexivity.
Qed.

(** The loop works inside the transaction: it leaves the committed
    database alone and the transaction open. *)
Lemma Run_loop_in_transaction (migrations : list Migration) :
  forall (latest : Z) (err : option error) (conn conn' : Conn) (r : Z * option error),
  is_Some (transaction conn) ->
  interp ddl begin_error commit_error (Run_loop migrations latest err) conn = Some (r, conn') ->
  committed conn' = committed conn /\ is_Some (transaction conn').
Proof.
  induction migrations as [|m rest IH]; intros latest err conn conn' r Htx H.
  - cbn in H. inversion H; subst. auto.
  - destruct err as [e|]; [rewrite Run_loop_break in H; inversion H; subst; auto|].
    destruct (Z.le_gt_cases (Version m) latest) as [Hle|Hgt].
    + rewrite Run_loop_skip in H by assumption. now apply IH in H.
    + destruct Htx as [d Hd]. destruct (ddl (Sql m) d) as [d'|e] eqn:Hddl.
      * rewrite (Run_loop_applies m rest latest conn d d') in H by (assumption || lia).
        apply IH in H; [exact H | cbn; eauto].
      * rewrite (Run_loop_fails m rest latest conn d e) in H by (assumption || lia).
        inversion H; subst. cbn. eauto.
Qed.

(** When the loop ends with an error, the error is that of the body
    of a migration [m]; the migrations before [m] went through
    without an error, the body of [m] is the last statement handed to
    the connection, and the tracker is the version of [m]. *)
Lemma Run_loop_error (migrations : list Migration) :
  forall (latest tracker : Z) (e : error) (conn conn' : Conn),
  is_Some (transaction conn) ->
  interp ddl begin_error commit_error (Run_loop migrations latest None) conn = Some ((tracker, Some e), conn') ->
  exists (done : list Migration) (m : Migration) (rest : list Migration)
         (reached : Z) (before : Conn) (d : Database),
    migrations = (done ++ m :: rest)%list
    /\ interp ddl begin_error commit_error (Run_loop done latest None) conn = Some ((reached, None), before)
    /\ reached < Version m
    /\ transaction before = Some d
    /\ ddl (Sql m) d = inr e
    /\ tracker = Version m
    /\ conn' = after_exec before (Sql m) d.
Proof.
  induction migrations as [|m0 rest0 IH]; intros latest tracker e conn conn' Htx H.
  - cbn in H. discriminate.
  - destruct (Z.le_gt_cases (Version m0) latest) as [Hle|Hgt].
    + rewrite Run_loop_skip in H by assumption.
      destruct (IH _ _ _ _ _ Htx H) as (done & m & rest & reached & before & d & -> & Hd & ?).
      exists (m0 :: done), m, rest, reached, before, d. split; [reflexivity|].
      split; [|assumption]. now rewrite Run_loop_skip.
    + destruct Htx as [d0 Hd0]. destruct (ddl (Sql m0) d0) as [d'|e0] eqn:Hddl.
      * rewrite (Run_loop_applies m0 rest0 latest conn d0 d') in H by (assumption || lia).
        assert (is_Some (transaction (after_exec conn (Sql m0) d'))) as Htx'
          by (cbn; eauto).
        destruct (IH _ _ _ _ _ Htx' H)
          as (done & m & rest & reached & before & d & -> & Hd & ?).
        exists (m0 :: done), m, rest, reached, before, d. split; [reflexivity|].
        split; [|assumption].
        now rewrite (Run_loop_applies m0 done latest conn d0 d') by (assumption || lia).
      * rewrite (Run_loop_fails m0 rest0 latest conn d0 e0) in H by (assumption || lia).
        inversion H; subst.
        exists [], m0, rest0, latest, conn, d0. repeat split; assumption || lia.
Qed.

End Runner.

Lemma Run_begins (ddl : string -> Database -> Database + error) (commit_error : option error)
    (migrations : list Migration) (conn : Conn) :
  transaction conn = None ->
  interp ddl None commit_error (Run migrations) conn
  = match interp ddl None commit_error (Run_loop migrations (persisted_version conn) None) (begun conn) with
    | Some ((tracker, Some e), conn1) =>
      interp ddl None commit_error (_ ← perform Rollback; Ret (Some e)) conn1
    | Some ((tracker, None), conn1) =>
      interp ddl None commit_error (returned ← (
                 '(_, err') ← Exec Background sql_Tx "UPDATE migrations SET version = :latest"
                                  {[ "latest" := Int tracker ]};
                 if bool_decide (err' ≠ None) then Ret err' else
                 _ ← perform Commit;
                 Ret None);
               _ ← perform Rollback;
               Ret returned) conn1
    | None => None
    end.
Proof.
  intros Htx. unfold Run. rewrite interp_bind, getLatestVersion_reads.
  assert ((match catalog (committed conn) with
           | Some (v :: _) => (v, None)
           | _ => (0, None)
           end : Z * option error) = (persisted_version conn, None)) as ->.
  { unfold persisted_version. destruct (catalog (committed conn)) as [[|v rows]|]; reflexivity. }
  cbn [bool_decide decide_rel]. 
  change (bool_decide (@None error ≠ None)) with false. cbv iota.
  rewrite interp_bind. cbn [perform interp handler].
  fold (begun conn). cbn [interp].
  change (bool_decide (@None error ≠ None)) with false. cbv iota.
  rewrite interp_bind, interp_bind.
  destruct (interp ddl None commit_error (Run_loop migrations (persisted_version conn) None)
              (begun conn))
    as [[[tracker [e|]] conn1]|]; [| |reflexivity].
  - reflexivity.
  - rewrite <- interp_bind. reflexivity.
Qed.

(** C9, as amended: when the body of a migration fails during a [Run]
    (the loop, started in the transaction that [Run] opens, ends with
    the error [e]), the failing body is the last statement handed to
    the connection, the migrations before it went through, and the
    version tracker holds the version of the failing migration;
    [Run] returns the error [e] as it is, updates no version and
    commits nothing, and the deferred rollback leaves the committed
    database, hence the persisted version, as before the run. *)
Theorem failing_migration_rolls_back
    (ddl : string -> Database -> Database + error) (commit_error : option error)
    (migrations : list Migration) (conn : Conn)
    (tracker : Z) (e : error) (conn1 : Conn) :
  transaction conn = None ->
  interp ddl None commit_error (Run_loop migrations (persisted_version conn) None) (begun conn)
  = Some ((tracker, Some e), conn1) ->
  (exists (done : list Migration) (m : Migration) (rest : list Migration)
          (reached : Z) (before : Conn) (d : Database),
     migrations = (done ++ m :: rest)%list
     /\ interp ddl None commit_error (Run_loop done (persisted_version conn) None) (begun conn)
        = Some ((reached, None), before)
     /\ reached < Version m
     /\ transaction before = Some d
     /\ ddl (Sql m) d = inr e
     /\ tracker = Version m
     /\ executed conn1 = (executed before ++ [Sql m])%list)
  /\ interp ddl None commit_error (Run migrations) conn = Some (Some e, rolled_back conn1)
  /\ committed (rolled_back conn1) = committed conn
  /\ transaction (rolled_back conn1) = None
  /\ persisted_version (rolled_back conn1) = persisted_version conn.
Proof.
  intros Htx Hloop.
  assert (is_Some (transaction (begun conn))) as Hopen by (cbn; eauto).
  destruct (Run_loop_in_transaction ddl None commit_error _ _ _ _ _ _ Hopen Hloop)
    as [Hcommitted [d1 Hd1]].
  split; [|split; [|split; [|split]]].
  - destruct (Run_loop_error ddl None commit_error _ _ _ _ _ _ Hopen Hloop)
      as (done & m & rest & reached & before & d & ? & ? & ? & ? & ? & ? & ->).
    exists done, m, rest, reached, before, d. repeat split; assumption.
  - rewrite Run_begins, Hloop by assumption. cbn. rewrite Hd1. reflexivity.
  - exact Hcommitted.
  - reflexivity.
  - unfold persisted_version. cbn. now rewrite Hcommitted.
Qed.

Lemma failing_migration_rolls_back_witness :
  interp example_ddl None None (Run [create_table; bad_column; add_index])
    (fresh_conn empty_database)
  = Some (Some (errorString "pq: relation no_such_table does not exist"),
          {| committed := empty_database; transaction := None;
             executed := [Sql create_table; Sql bad_column] |}).
Proof.
  assert (interp example_ddl None None
            (Run_loop [create_table; bad_column; add_index]
               (persisted_version (fresh_conn empty_database)) None)
            (begun (fresh_conn empty_database))
          = Some ((2, Some (errorString "pq: relation no_such_table does not exist")),
                  {| committed := empty_database;
                     transaction := Some {| catalog := Some [1];
                                            schema := [Sql create_table] |};
                     executed := [Sql create_table; Sql bad_column] |})) as Hloop
    by reflexivity.
  destruct (failing_migration_rolls_back example_ddl None _
              (fresh_conn empty_database) _ _ _ eq_refl Hloop)
    as (_ & H & _).
  exact H.
Defined.

(** C9, as stated, has the tracker keep the version of the last
    migration that went through.  Here version 1 goes through, the
    body of version 2 fails, and the loop leaves the tracker at 2:
    [latest = m.Version] follows [tx.Exec] whatever it returned. *)
Lemma tracker_takes_failing_version :
  exists (e : error) (conn1 : Conn),
    interp example_ddl None None (Run_loop [create_table; bad_column; add_index] 0 None)
      (begun (fresh_conn empty_database))
    = Some ((Version bad_column, Some e), conn1)
    /\ executed conn1 = [Sql create_table; Sql bad_column]
    /\ Version bad_column <> Version create_table.
Proof. eexists _, _. split; [reflexivity | split; [reflexivity | discriminate]]. Qed.




(** ** More on the scanner *)

Lemma render_text_or_error (params : Params) (toks : list token) (result : string) :
  (exists text, render params toks result = (text, None))
  \/ (exists err, render params toks result = (EmptyString, Some err)).
Proof.
  revert result. induction toks as [|[c|n] toks IH]; intros result; cbn [render].
  - left. now eexists.
  - apply IH.
  - destruct (params !! n) as [v|]; [|right; now eexists].
    destruct (toDbValue v) as [cv [e|]]; [right; now eexists | apply IH].
Qed.

(** X1: [qprintf] returns for every template and every parameter
    map: no index or slice expression of the loop is out of range, and
    the loop ends within [len(sql) + 1] iterations.  What it returns is
    a text with no error, or the empty text with an error. *)
Theorem qprintf_returns_text_or_error (sql : string) (params : Params) :
  (exists text, qprintf sql params = Done (text, None))
  \/ (exists err, qprintf sql params = Done (EmptyString, Some err)).
Proof.
  rewrite qprintf_scan.
  destruct (render_text_or_error params (scan sql 0) EmptyString) as [[text H]|[err H]].
  - left. exists text. now rewrite H.
  - right. exists err. now rewrite H.
Qed.

Lemma render_weaken (params params' : Params) (toks : list token) (result out : string) :
  params ⊆ params' ->
  render params toks result = (out, None) -> render params' toks result = (out, None).
Proof.
  intros Hsub. revert result. induction toks as [|[c|n] toks IH]; intros result; cbn [render].
  - trivial.
  - apply IH.
  - destruct (params !! n) as [v|] eqn:E; [|discriminate].
    rewrite (lookup_weaken _ _ _ _ E Hsub).
    destruct (toDbValue v) as [cv [e|]]; [discriminate | apply IH].
Qed.

(** X2: parameters the template does not use are ignored.  When a
    template renders with a parameter map, it renders to the same text
    with any map that extends it. *)
Theorem qprintf_more_parameters (sql : string) (params params' : Params) (out : string) :
  params ⊆ params' ->
  qprintf sql params = Done (out, None) ->
  qprintf sql params' = Done (out, None).
Proof.
  intros Hsub. rewrite !qprintf_scan. intros [= H].
  now rewrite (render_weaken params params' _ _ out Hsub H).
Qed.

Lemma qprintf_more_parameters_witness :
  qprintf "id = :id" (<[ "name" := String_ "x" ]> {[ "id" := Int 7 ]})
  = Done ("id = 7", None).
Proof.
  apply (qprintf_more_parameters "id = :id" {[ "id" := Int 7 ]}).
  - apply insert_subseteq. reflexivity.
  - reflexivity.
Defined.

Lemma render_succeeds (params : Params) (toks : list token) (result : string) :
  (exists out, render params toks result = (out, None))
  <-> Forall (fun name => exists v, params !! name = Some v /\ snd (toDbValue v) = None)
             (placeholders toks).
Proof.
  revert result. induction toks as [|[c|n] toks IH]; intros result;
    cbn [render placeholders].
  - split; [constructor | now eexists].
  - apply IH.
  - destruct (params !! n) as [v|] eqn:E.
    + destruct (toDbValue v) as [cv [e|]] eqn:Ev.
      * split; [intros [out H]; discriminate|].
        intros H. inversion H as [|? ? (v' & Hv & He) ?]; subst.
        rewrite E in Hv. injection Hv as <-. rewrite Ev in He. discriminate.
      * rewrite IH. split; [intros H; constructor; [|assumption] | intros H; now inversion H].
        exists v. now rewrite Ev.
    + split; [intros [out H]; discriminate|].
      intros H. inversion H as [|? ? (v' & Hv & _) ?]; subst. rewrite E in Hv. discriminate.
Qed.

(** X3: [qprintf] renders a template exactly when every placeholder
    it finds in it has a parameter whose value encodes without an
    error. *)
Theorem qprintf_succeeds_iff (sql : string) (params : Params) :
  (exists out, qprintf sql params = Done (out, None))
  <-> Forall (fun name => exists v, params !! name = Some v /\ snd (toDbValue v) = None)
             (placeholders (scan sql 0)).
Proof.
  rewrite qprintf_scan, <- (render_succeeds params (scan sql 0) EmptyString).
  split; intros [out H]; exists out; [now injection H | now rewrite H].
Qed.

Lemma span_name_apart (s1 s2 : string) :
  starts_apart s2 = true -> fst (span_name (s1 ++ s2)) = fst (span_name s1).
Proof.
  intros H. induction s1 as [|c s1 IH]; cbn [String.append span_name].
  - destruct s2 as [|d s2]; [reflexivity|]. cbn [span_name].
    cbn in H. apply andb_true_iff in H as [H _]. apply negb_true_iff in H.
    now rewrite H.
  - destruct (is_name_byte c); [|reflexivity].
    destruct (span_name (s1 ++ s2)), (span_name s1). cbn in *. now rewrite IH.
Qed.

Lemma span_name_length (s : string) :
  (String.length (fst (span_name s)) <= String.length s)%nat.
Proof.
  induction s as [|c s IH]; cbn [span_name]; [cbn; lia|].
  destruct (is_name_byte c); [|cbn; lia].
  destruct (span_name s). cbn in *. lia.
Qed.

Lemma scan_apart (s2 : string) (n : nat) :
  starts_apart s2 = true ->
  forall (s1 : string) (skip : nat),
    (String.length s1 <= n)%nat -> (skip <= String.length s1)%nat ->
    scan (s1 ++ s2) skip = (scan s1 skip ++ scan s2 0)%list.
Proof.
  intros Hs2. induction n as [|n IH]; intros s1 skip Hn Hskip.
  - destruct s1; [|cbn in Hn; lia]. cbn in Hskip. now replace skip with 0%nat by lia.
  - destruct s1 as [|c s1]; [cbn in Hskip; now replace skip with 0%nat by lia|].
    cbn [String.length] in Hn, Hskip.
    destruct skip as [|k]; cbn [String.append scan].
    + destruct (is_colon c) eqn:Hc.
      * destruct s1 as [|d s1].
        -- cbn [String.append]. destruct s2 as [|d s2]; [reflexivity|].
           cbn in Hs2. apply andb_true_iff in Hs2 as [Hn2 Hc2].
           apply negb_true_iff in Hn2, Hc2. rewrite Hn2.
           cbn [scan app]. now rewrite Hc2.
        -- cbn [String.append]. destruct (is_name_byte d) eqn:Hd.
           ++ change (String d (s1 ++ s2)) with (String d s1 ++ s2).
              rewrite span_name_apart by assumption.
              cbn [app]. f_equal. apply IH; [cbn in *; lia|].
              apply span_name_length.
           ++ cbn [app]. f_equal. f_equal. apply IH; cbn in *; lia.
      * cbn [app]. f_equal. apply IH; lia.
    + apply IH; lia.
Qed.

Lemma render_app (params : Params) (t1 t2 : list token) (result : string) :
  render params (t1 ++ t2) result
  = match render params t1 result with
    | (o1, None) => render params t2 o1
    | r => r
    end.
Proof.
  revert result. induction t1 as [|[c|n] t1 IH]; intros result; cbn [app render].
  - reflexivity.
  - apply IH.
  - destruct (params !! n) as [v|]; [|reflexivity].
    destruct (toDbValue v) as [cv [e|]]; [reflexivity | apply IH].
Qed.

Lemma render_from (params : Params) (toks : list token) (result : string) :
  render params toks result
  = match render params toks EmptyString with
    | (o, None) => (result ++ o, None)
    | r => r
    end.
Proof.
  revert result. induction toks as [|[c|n] toks IH]; intros result; cbn [render].
  - now rewrite app_empty_r.
  - rewrite (IH (result ++ _)), (IH (EmptyString ++ _)).
    destruct (render params toks EmptyString) as [o [e|]]; [reflexivity|].
    now rewrite app_assoc.
  - destruct (params !! n) as [v|]; [|reflexivity].
    destruct (toDbValue v) as [cv [e|]]; [reflexivity|].
    rewrite (IH (result ++ _)), (IH (EmptyString ++ _)).
    destruct (render params toks EmptyString) as [o [e|]]; [reflexivity|].
    now rewrite app_assoc.
Qed.

(** X4: templates can be joined where the second one is empty or
    starts with a byte that is neither a name byte nor a colon (a
    space, a comma, a parenthesis): [qprintf] renders the joined
    template to the joined texts, and fails with the error of the first
    part that fails. *)
Theorem qprintf_joined_templates (s1 s2 : string) (params : Params) :
  starts_apart s2 = true ->
  qprintf (s1 ++ s2) params
  = match qprintf s1 params with
    | Done (o1, None) =>
      match qprintf s2 params with
      | Done (o2, None) => Done (o1 ++ o2, None)
      | r => r
      end
    | r => r
    end.
Proof.
  intros H. rewrite !qprintf_scan.
  rewrite (scan_apart s2 (String.length s1) H s1 0) by lia.
  rewrite render_app.
  destruct (render params (scan s1 0) EmptyString) as [o1 [e|]]; [reflexivity|].
  rewrite render_from.
  destruct (render params (scan s2 0) EmptyString) as [o2 [e|]]; reflexivity.
Qed.

Lemma qprintf_joined_templates_witness :
  qprintf ("SELECT * FROM t WHERE a = :a" ++ " AND b = :b")
          {[ "a" := Int 1; "b" := String_ "x" ]}
  = Done ("SELECT * FROM t WHERE a = 1" ++ " AND b = 'x'", None).
Proof.
  exact (qprintf_joined_templates "SELECT * FROM t WHERE a = :a" " AND b = :b"
           {[ "a" := Int 1; "b" := String_ "x" ]} eq_refl).
Defined.

(** X21: the scanner knows nothing of SQL quoting or comments: a
    placeholder inside a string literal or after a comment marker is
    substituted as anywhere else.  A template that renders to [out]
    renders to [out] between the quotes when it is put between
    quotes, and to [out] after the marker when it is put after [--]. *)
Theorem qprintf_ignores_sql_quoting (sql : string) (params : Params) (out : string) :
  qprintf sql params = Done (out, None) ->
  qprintf ("'" ++ sql ++ "'") params = Done ("'" ++ out ++ "'", None)
  /\ qprintf ("-- " ++ sql) params = Done ("-- " ++ out, None).
Proof.
  rewrite !qprintf_scan. intros [= H].
  assert (forall head : string, no_colon head = true ->
            render params (scan (head ++ sql) 0) EmptyString = (head ++ out, None)) as Hhead.
  { intros head Hn.
    now rewrite (scan_no_colon head sql Hn), render_lits, render_from, H. }
  split; [|now rewrite (Hhead "-- " eq_refl)].
  rewrite <- app_assoc.
  rewrite (scan_apart "'" (String.length ("'" ++ sql)) eq_refl ("'" ++ sql) 0) by lia.
  rewrite render_app, (Hhead "'" eq_refl).
  cbn [scan is_colon Ascii.eqb Bool.eqb render]. now rewrite app_assoc.
Qed.

Lemma qprintf_ignores_sql_quoting_witness :
  qprintf "'label:name'" {[ "name" := String_ "x" ]} = Done ("'label'x''", None)
  /\ qprintf "-- label:name" {[ "name" := String_ "x" ]} = Done ("-- label'x'", None).
Proof.
  apply (qprintf_ignores_sql_quoting "label:name" {[ "name" := String_ "x" ]} "label'x'").
  reflexivity.
Defined.

(** ** The literal quoter on arbitrary bytes *)

Ltac scalar_error :=
  repeat match goal with P := _ |- _ => subst P end; cbn; unfold RuneError; lia.

Ltac next_scalar_byte t c b :=
  destruct t as [|c t]; [scalar_error|];
  pose proof (byte_val_range c); set (b := byte_val c) in *.

Ltac accept_scalar_test :=
  match goal with
  | |- context [(?a <? ?lo) || (?hi <? ?a)] =>
    destruct (Z.ltb_spec a lo); [scalar_error|];
    destruct (Z.ltb_spec hi a); [scalar_error|]; cbn [orb]
  end.

(** Whatever the bytes, the decoder returns a Unicode scalar value. *)
Lemma decode_scalar_value (s : string) :
  0 <= fst (DecodeRuneInString s) < 0xD800
  \/ 0xDFFF < fst (DecodeRuneInString s) <= 0x10FFFF.
Proof.
  change ((fun r => 0 <= r < 0xD800 \/ 0xDFFF < r <= 0x10FFFF) (fst (DecodeRuneInString s))).
  set (P := fun r : Z => _).
  destruct s as [|c0 t0]; [scalar_error|].
  pose proof (byte_val_range c0) as Hr.
  destruct (Z.lt_ge_cases (byte_val c0) 128) as [Hlt|H].
  { rewrite decode_ascii by assumption. subst P. cbn [fst]. lia. }
  unfold DecodeRuneInString.
  set (b0 := byte_val c0) in *.
  assert (first b0 = xx
          \/ first b0 = s1 /\ 0xC2 <= b0 < 0xE0
          \/ (first b0 = s2 \/ (first b0 = s3 \/ first b0 = s4) /\ 0xE1 <= b0) /\ 0xE0 <= b0 <= 0xEF
          \/ (first b0 = s5 \/ (first b0 = s6 \/ first b0 = s7) /\ 0xF1 <= b0) /\ 0xF0 <= b0 <= 0xF4)
    as Hf
    by (unfold first, xx, as_, s1, s2, s3, s4, s5, s6, s7; decide_tests; intuition lia).
  cbv zeta.
  destruct Hf as [-> | [[-> Hb] | [[Hc Hb] | [Hc Hb]]]].
  - scalar_error.
  - change (as_ <=? s1) with false. cbv iota.
    change (Z.land s1 7) with 2. change (acceptRanges (Z.shiftr s1 4)) with (locb, hicb).
    unfold fst at 2, snd, locb, hicb.
    destruct (_ <? 2); [scalar_error|].
    next_scalar_byte t0 c1 b1. accept_scalar_test.
    change (2 <=? 2) with true. cbv iota. unfold fst.
    subst P; cbv beta. bits_to_arith. arith.
  - assert (exists lo hi, (as_ <=? first b0) = false /\ Z.land (first b0) 7 = 3
              /\ acceptRanges (Z.shiftr (first b0) 4) = (lo, hi)
              /\ 0x80 <= lo /\ hi <= 0xBF /\ (b0 < 0xE1 -> 0xA0 <= lo)
              /\ (b0 = 0xED -> hi <= 0x9F))
      as (lo & hi & -> & -> & -> & Hlo & Hhi & Hover & Hsur).
    { unfold first, xx, as_, s1, s2, s3, s4, s5, s6, s7 in Hc |- *.
      destruct (Z.eq_dec b0 0xE0) as [->|]; [exists 0xA0, 0xBF; repeat split; try reflexivity; lia|].
      destruct (Z.eq_dec b0 0xED) as [->|]; [exists 0x80, 0x9F; repeat split; try reflexivity; lia|].
      exists 0x80, 0xBF.
      assert ((if b0 <? 128 then 240 else if b0 <? 194 then 241 else if b0 <? 224 then 2
               else if b0 =? 224 then 19 else if b0 <? 237 then 3 else if b0 =? 237 then 35
               else if b0 <? 240 then 3 else if b0 =? 240 then 52 else if b0 <? 244 then 4
               else if b0 =? 244 then 68 else 241) = 3) as -> by (decide_tests; reflexivity).
      repeat split; try reflexivity; lia. }
    unfold fst at 2, snd, locb, hicb.
    destruct (_ <? 3); [scalar_error|].
    next_scalar_byte t0 c1 b1. accept_scalar_test.
    change (3 <=? 2) with false. cbv iota.
    next_scalar_byte t0 c2 b2. accept_scalar_test.
    change (3 <=? 3) with true. cbv iota. unfold fst.
    bits_to_arith.
    subst P; cbv beta.
    destruct (Z.eq_dec b0 0xED) as [E|E]; [specialize (Hsur E)|]; arith.
  - assert (exists lo hi, (as_ <=? first b0) = false /\ Z.land (first b0) 7 = 4
              /\ acceptRanges (Z.shiftr (first b0) 4) = (lo, hi)
              /\ 0x80 <= lo /\ hi <= 0xBF /\ (b0 < 0xF1 -> 0x90 <= lo)
              /\ (b0 = 0xF4 -> hi <= 0x8F))
      as (lo & hi & -> & -> & -> & Hlo & Hhi & Hover & Hmax).
    { unfold first, xx, as_, s1, s2, s3, s4, s5, s6, s7 in Hc |- *.
      destruct (Z.eq_dec b0 0xF0) as [->|]; [exists 0x90, 0xBF; repeat split; try reflexivity; lia|].
      destruct (Z.eq_dec b0 0xF4) as [->|]; [exists 0x80, 0x8F; repeat split; try reflexivity; lia|].
      exists 0x80, 0xBF.
      assert ((if b0 <? 128 then 240 else if b0 <? 194 then 241 else if b0 <? 224 then 2
               else if b0 =? 224 then 19 else if b0 <? 237 then 3 else if b0 =? 237 then 35
               else if b0 <? 240 then 3 else if b0 =? 240 then 52 else if b0 <? 244 then 4
               else if b0 =? 244 then 68 else 241) = 4) as -> by (decide_tests; reflexivity).
      repeat split; try reflexivity; lia. }
    unfold fst at 2, snd, locb, hicb.
    destruct (_ <? 4); [scalar_error|].
    next_scalar_byte t0 c1 b1. accept_scalar_test.
    change (4 <=? 2) with false. cbv iota.
    next_scalar_byte t0 c2 b2. accept_scalar_test.
    change (4 <=? 3) with false. cbv iota.
    next_scalar_byte t0 c3 b3. accept_scalar_test.
    unfold fst. subst P; cbv beta.
    bits_to_arith.
    destruct (Z.eq_dec b0 0xF4) as [E|E]; [specialize (Hmax E)|]; arith.
Qed.

Lemma decode_valid (s : string) : ValidRune (fst (DecodeRuneInString s)) = true.
Proof.
  unfold ValidRune, surrogateMin, surrogateMax, MaxRune.
  destruct (decode_scalar_value s) as [H|H].
  - apply orb_true_iff. left. apply andb_true_iff. split; [apply Z.leb_le | apply Z.ltb_lt]; lia.
  - apply orb_true_iff. right. apply andb_true_iff. split; [apply Z.ltb_lt | apply Z.leb_le]; lia.
Qed.

Lemma range_from_valid (s : string) :
  forall (skip i : nat),
    Forall (fun c => ValidRune c = true) (map snd (range_from s skip i)).
Proof.
  induction s as [|c s IH]; intros skip i; cbn [range_from]; [constructor|].
  destruct skip as [|k]; [|apply IH].
  pose proof (decode_valid (String c s)) as Hv.
  destruct (DecodeRuneInString (String c s)) as [r size]. cbn [map snd fst] in *.
  constructor; [assumption | apply IH].
Qed.

Lemma doubled_valid (cps : list rune) :
  Forall (fun c => ValidRune c = true) cps ->
  Forall (fun c => ValidRune c = true) (flat_map doubled cps).
Proof.
  induction 1 as [|c cps Hc H IH]; cbn [flat_map]; [constructor|].
  unfold doubled. destruct (_ || _); repeat (constructor; [assumption|]); assumption.
Qed.

Lemma spec_quote_valid (cps : list rune) :
  Forall (fun c => ValidRune c = true) cps ->
  Forall (fun c => ValidRune c = true) (spec_quote cps).
Proof.
  intros H. unfold spec_quote. apply Forall_app. split.
  - destruct (existsb _ _); repeat constructor.
  - apply Forall_app. split; [repeat constructor|].
    apply Forall_app. split; [now apply doubled_valid | repeat constructor].
Qed.

(** X5: whatever the bytes of its argument, valid UTF-8 or not,
    [quoteLiteral] returns well-formed UTF-8.  The runes of the loop
    [for _, c := range s] are Unicode scalar values (a byte that
    belongs to no valid encoding is read as U+FFFD), and the result is
    the encoding of their quoted form: quotes and backslashes doubled,
    enclosed in quotes, [E] in front when there is a backslash. *)
Theorem quoteLiteral_well_formed (s : string) :
  Forall (fun c => ValidRune c = true) (map snd (range s))
  /\ quoteLiteral s = utf8 (spec_quote (map snd (range s)))
  /\ WellFormed (quoteLiteral s).
Proof.
  pose proof (range_from_valid s 0 0) as H. fold (range s) in H.
  split; [exact H|]. split; [apply quoteLiteral_runes|].
  exists (spec_quote (map snd (range s))). split.
  - now apply spec_quote_valid.
  - apply quoteLiteral_runes.
Qed.

Lemma utf8_injective (l1 l2 : list rune) :
  Forall (fun c => ValidRune c = true) l1 ->
  Forall (fun c => ValidRune c = true) l2 ->
  utf8 l1 = utf8 l2 -> l1 = l2.
Proof.
  intros H1 H2 E.
  rewrite <- (range_utf8 l1 0 H1), <- (range_utf8 l2 0 H2). now rewrite E.
Qed.

Lemma doubled_head (c : rune) : exists tl, doubled c = c :: tl.
Proof. unfold doubled. destruct (_ || _); eauto. Qed.

Lemma flat_map_doubled_injective (l1 : list rune) :
  forall l2, flat_map doubled l1 = flat_map doubled l2 -> l1 = l2.
Proof.
  induction l1 as [|x l1 IH]; intros [|y l2] E; cbn [flat_map] in E.
  - reflexivity.
  - destruct (doubled_head y) as [tl Hy]. rewrite Hy in E. discriminate.
  - destruct (doubled_head x) as [tl Hx]. rewrite Hx in E. discriminate.
  - assert (x = y) as ->.
    { destruct (doubled_head x) as [tx Hx], (doubled_head y) as [ty Hy].
      rewrite Hx, Hy in E. now injection E. }
    f_equal. apply IH. now apply app_inv_head in E.
Qed.

Lemma existsb_backslash_doubled (l : list rune) :
  existsb is_backslash (flat_map doubled l) = existsb is_backslash l.
Proof.
  induction l as [|c l IH]; [reflexivity|].
  cbn [flat_map existsb]. rewrite existsb_app, IH. f_equal.
  unfold doubled. destruct (is_backslash c) eqn:E; cbn [orb existsb]; rewrite ?E.
  - reflexivity.
  - destruct (is_quote c); cbn [existsb]; rewrite ?E; reflexivity.
Qed.

Lemma spec_quote_injective (l1 l2 : list rune) :
  spec_quote l1 = spec_quote l2 -> l1 = l2.
Proof.
  unfold spec_quote. intros E.
  assert (flat_map doubled l1 ++ [byte_val quote] = flat_map doubled l2 ++ [byte_val quote])%list
    as E'.
  { destruct (existsb is_backslash l1) eqn:B1, (existsb is_backslash l2) eqn:B2;
      cbn [app] in E.
    - now injection E.
    - discriminate.
    - discriminate.
    - now injection E. }
  apply app_inj_tail in E' as [E' _]. now apply flat_map_doubled_injective.
Qed.

(** X6: [quoteLiteral] loses nothing: two different Unicode strings,
    sequences of scalar values held in UTF-8, never get the same
    literal. *)
Theorem quoteLiteral_distinct (cps1 cps2 : list rune) :
  Forall (fun c => ValidRune c = true) cps1 ->
  Forall (fun c => ValidRune c = true) cps2 ->
  cps1 <> cps2 ->
  quoteLiteral (utf8 cps1) <> quoteLiteral (utf8 cps2).
Proof.
  intros H1 H2 Hne E. apply Hne.
  rewrite !quoteLiteral_runes in E. unfold range in E.
  rewrite !range_utf8 in E by assumption.
  apply spec_quote_injective, utf8_injective; try assumption; now apply spec_quote_valid.
Qed.

Lemma quoteLiteral_distinct_witness :
  quoteLiteral (utf8 [0x27]) <> quoteLiteral (utf8 [0x27; 0x27])
  /\ quoteLiteral (utf8 [0x5C; 0x27]) <> quoteLiteral (utf8 [0x27; 0x5C]).
Proof.
  split; apply quoteLiteral_distinct; repeat constructor; discriminate.
Defined.

(** ** The earlier literal quoter *)

Lemma find_byte_split (q : ascii) (s : string) (j : nat) :
  find_byte q s = Some j ->
  s = take_bytes j s ++ String q (drop_bytes (S j) s)
  /\ has_byte q (take_bytes j s) = false.
Proof.
  revert j. induction s as [|c s IH]; intros j; cbn [find_byte]; [discriminate|].
  destruct (Ascii.eqb_spec c q) as [->|Hne].
  - intros [= <-]. split; [reflexivity | reflexivity].
  - destruct (find_byte q s) as [k|]; [|discriminate].
    intros [= <-]. destruct (IH k eq_refl) as [E H].
    cbn [take_bytes drop_bytes String.append has_byte]. split.
    + f_equal. exact E.
    + destruct (Ascii.eqb_spec c q); [contradiction | exact H].
Qed.

Lemma find_byte_absent (q : ascii) (s : string) :
  find_byte q s = None <-> has_byte q s = false.
Proof.
  induction s as [|c s IH]; cbn [find_byte has_byte]; [tauto|].
  destruct (Ascii.eqb c q); cbn [orb]; [split; discriminate|].
  rewrite <- IH. destruct (find_byte q s); [split; discriminate | tauto].
Qed.

Lemma Index_from_byte (q : ascii) (s : string) (i : nat) :
  Index_from s (String q EmptyString) i
  = match find_byte q s with
    | Some j => Z.of_nat (i + j)
    | None => -1
    end.
Proof.
  revert i. induction s as [|c s IH]; intros i; cbn [Index_from HasPrefix find_byte].
  - reflexivity.
  - rewrite HasPrefix_empty, andb_true_r.
    destruct (Ascii.eqb c q); [f_equal; lia|].
    rewrite IH. destruct (find_byte q s); cbn [fmap option_fmap option_map]; [f_equal; lia | reflexivity].
Qed.

Lemma replace_byte_app (q : ascii) (new s t : string) :
  replace_byte q new (s ++ t) = replace_byte q new s ++ replace_byte q new t.
Proof.
  induction s as [|c s IH]; cbn [String.append replace_byte]; [reflexivity|].
  destruct (Ascii.eqb c q); rewrite IH; [now rewrite app_assoc | reflexivity].
Qed.

Lemma replace_byte_absent (q : ascii) (new s : string) :
  has_byte q s = false -> replace_byte q new s = s.
Proof.
  induction s as [|c s IH]; cbn [has_byte replace_byte]; [reflexivity|].
  destruct (Ascii.eqb c q); cbn [orb]; [discriminate|].
  intros H. now rewrite IH.
Qed.

Lemma drop_bytes_length (n : nat) (s : string) :
  (String.length (drop_bytes n s) <= String.length s)%nat.
Proof.
  revert s. induction n as [|n IH]; intros [|c s]; cbn; try lia.
  specialize (IH s). lia.
Qed.

(** With a pattern of one byte, the loop of [strings.Replace] replaces
    every such byte. *)
Lemma Replace_loop_byte (q : ascii) (new : string) (fuel : nat) :
  forall (rest : string) (later : bool) (b : string),
    (String.length rest < fuel)%nat ->
    Replace_loop (Count_from fuel rest (String q EmptyString)) later rest
                 (String q EmptyString) new b
    = b ++ replace_byte q new rest.
Proof.
  induction fuel as [|fuel IH]; intros rest later b Hlen; [lia|].
  cbn [Count_from]. unfold Index. rewrite Index_from_byte.
  destruct (find_byte q rest) as [j|] eqn:E.
  - replace (Z.of_nat (0 + j) =? -1) with false by (symmetry; apply Z.eqb_neq; lia).
    cbn [Replace_loop]. unfold Index. rewrite Index_from_byte, E.
    rewrite Nat2Z.id. cbn [String.length Nat.add].
    replace (j + 1)%nat with (S j) by lia.
    destruct (find_byte_split q rest j E) as [Hsplit Hhead].
    rewrite IH.
    + unfold WriteString. rewrite Hsplit at 3.
      rewrite replace_byte_app, (replace_byte_absent _ _ _ Hhead).
      cbn [replace_byte]. rewrite Ascii.eqb_refl.
      now rewrite !app_assoc.
    + pose proof (drop_bytes_length (S j) rest).
      assert (String.length rest <> 0)%nat by (destruct rest; [discriminate | cbn; lia]).
      assert (String.length (drop_bytes (S j) rest) < String.length rest)%nat; [|lia].
      rewrite Hsplit at 2. rewrite length_app. cbn [String.length]. lia.
  - change (-1 =? -1) with true. cbn [Replace_loop]. unfold WriteString.
    apply find_byte_absent in E. now rewrite (replace_byte_absent _ _ _ E).
Qed.

Lemma Count_from_absent (q : ascii) (fuel : nat) (s : string) :
  Count_from (S fuel) s (String q EmptyString) = O -> has_byte q s = false.
Proof.
  cbn [Count_from]. unfold Index. rewrite Index_from_byte.
  destruct (find_byte q s) as [j|] eqn:E.
  - replace (Z.of_nat (0 + j) =? -1) with false by (symmetry; apply Z.eqb_neq; lia).
    discriminate.
  - intros _. now apply find_byte_absent.
Qed.

Lemma Replace_byte (q : ascii) (new s : string) :
  new <> String q EmptyString ->
  Replace s (String q EmptyString) new (-1) = replace_byte q new s.
Proof.
  intros Hne. unfold Replace.
  replace (String.eqb (String q EmptyString) new) with false
    by (symmetry; apply String.eqb_neq; congruence).
  change (-1 =? 0) with false. cbn [orb]. unfold Count.
  destruct (Nat.eqb_spec (Count_from (S (String.length s)) s (String q EmptyString)) 0)
    as [E|E].
  - symmetry. apply replace_byte_absent. now apply Count_from_absent in E.
  - change (-1 <? 0) with true. cbn [orb].
    rewrite Replace_loop_byte by lia. reflexivity.
Qed.

Lemma Contains_byte (q : ascii) (s : string) :
  Contains s (String q EmptyString) = has_byte q s.
Proof.
  induction s as [|c s IH]; cbn [Contains HasPrefix has_byte]; [reflexivity|].
  now rewrite HasPrefix_empty, andb_true_r, IH.
Qed.

Lemma has_byte_app (q : ascii) (s t : string) :
  has_byte q (s ++ t) = has_byte q s || has_byte q t.
Proof.
  induction s as [|c s IH]; cbn [String.append has_byte]; [reflexivity|].
  now rewrite IH, orb_assoc.
Qed.

Lemma byte_of_high (x : Z) (q : ascii) :
  128 <= x < 256 -> byte_val q < 128 -> Ascii.eqb (byte_of x) q = false.
Proof.
  intros Hx Hq. destruct (Ascii.eqb_spec (byte_of x) q) as [<-|]; [|reflexivity].
  rewrite byte_val_of, Z.mod_small in Hq by lia. lia.
Qed.

(** The encoding of a scalar value other than an ASCII one has no
    ASCII byte. *)
Lemma append_rune_other (c : rune) (q : ascii) :
  ValidRune c = true -> byte_val q < 128 -> c <> byte_val q ->
  has_byte q (AppendRune c) = false.
Proof.
  unfold ValidRune, surrogateMin, surrogateMax, MaxRune. intros Hv Hq Hne.
  assert (0 <= c < 0xD800 \/ 0xDFFF < c <= 0x10FFFF) as Hc.
  { apply orb_true_iff in Hv as [Hv|Hv]; apply andb_true_iff in Hv as [H1 H2];
      [left | right]; [apply Z.leb_le in H1; apply Z.ltb_lt in H2
                      | apply Z.ltb_lt in H1; apply Z.leb_le in H2]; lia. }
  destruct (Z.le_gt_cases c 0x7F) as [H1|H1].
  - rewrite append_rune_1 by lia. cbn [bytes fold_right has_byte].
    rewrite orb_false_r. destruct (Ascii.eqb_spec (byte_of c) q) as [<-|]; [|reflexivity].
    rewrite byte_val_of, Z.mod_small in Hne by lia. contradiction.
  - destruct (Z.le_gt_cases c 0x7FF) as [H2|H2].
    + rewrite append_rune_2 by lia. cbn [bytes fold_right has_byte].
      rewrite !byte_of_high by (try assumption; arith). reflexivity.
    + destruct (Z.le_gt_cases c 0xFFFF) as [H3|H3].
      * rewrite append_rune_3 by lia. cbn [bytes fold_right has_byte].
        rewrite !byte_of_high by (try assumption; arith). reflexivity.
      * rewrite append_rune_4 by lia. cbn [bytes fold_right has_byte].
        rewrite !byte_of_high by (try assumption; arith). reflexivity.
Qed.

Lemma append_rune_byte (q : ascii) :
  byte_val q < 128 -> AppendRune (byte_val q) = String q EmptyString.
Proof.
  intros Hq. pose proof (byte_val_range q).
  rewrite append_rune_1 by lia. cbn [bytes fold_right]. now rewrite byte_of_val.
Qed.

Lemma replace_byte_utf8 (q : ascii) (cps : list rune) :
  byte_val q < 128 ->
  Forall (fun c => ValidRune c = true) cps ->
  replace_byte q (String q (String q EmptyString)) (utf8 cps)
  = utf8 (flat_map (fun c => if c =? byte_val q then [c; c] else [c]) cps).
Proof.
  intros Hq. induction 1 as [|c cps Hc H IH]; [reflexivity|].
  rewrite utf8_cons, replace_byte_app, IH. cbn [flat_map]. rewrite utf8_app. f_equal.
  destruct (Z.eqb_spec c (byte_val q)) as [->|Hne].
  - unfold utf8. cbn [map flatten fold_right]. rewrite append_rune_byte by assumption.
    cbn. now rewrite Ascii.eqb_refl.
  - rewrite replace_byte_absent by now apply append_rune_other.
    unfold utf8. cbn [map flatten fold_right]. now rewrite app_empty_r.
Qed.

Lemma has_byte_utf8 (q : ascii) (cps : list rune) :
  byte_val q < 128 ->
  Forall (fun c => ValidRune c = true) cps ->
  has_byte q (utf8 cps) = existsb (fun c => c =? byte_val q) cps.
Proof.
  intros Hq. induction 1 as [|c cps Hc H IH]; [reflexivity|].
  rewrite utf8_cons, has_byte_app, IH. cbn [existsb]. f_equal.
  destruct (Z.eqb_spec c (byte_val q)) as [->|Hne].
  - rewrite append_rune_byte by assumption. cbn. now rewrite Ascii.eqb_refl.
  - now apply append_rune_other.
Qed.

Lemma doubled_in_two_steps (cps : list rune) :
  flat_map (fun c => if c =? byte_val backslash then [c; c] else [c])
    (flat_map (fun c => if c =? byte_val quote then [c; c] else [c]) cps)
  = flat_map doubled cps.
Proof.
  induction cps as [|c cps IH]; [reflexivity|].
  cbn [flat_map]. rewrite flat_map_app, IH. f_equal.
  unfold doubled, is_backslash, is_quote.
  destruct (Z.eqb_spec c (byte_val quote)) as [->|Hq].
  - reflexivity.
  - cbn [flat_map]. rewrite orb_false_r. destruct (c =? byte_val backslash); reflexivity.
Qed.

Lemma quotes_doubled_valid (cps : list rune) :
  Forall (fun c => ValidRune c = true) cps ->
  Forall (fun c => ValidRune c = true)
         (flat_map (fun c => if c =? byte_val quote then [c; c] else [c]) cps).
Proof.
  induction 1 as [|c cps Hc H IH]; cbn [flat_map]; [constructor|].
  destruct (c =? byte_val quote); repeat (constructor; [assumption|]); assumption.
Qed.

(** X7: the rewrite of [quoteLiteral] as a loop over the runes kept
    its result on every Unicode string: the earlier [quoteLiteral],
    written with [strings.Contains] and [strings.Replace], returns the
    same literal for every sequence of scalar values held in UTF-8.
    The two differ on bytes that are not valid UTF-8, which the earlier
    one copies and the later one replaces by U+FFFD. *)
Theorem earlier_quoteLiteral_agrees :
  (forall cps : list rune,
     Forall (fun c => ValidRune c = true) cps ->
     Earlier.quoteLiteral (utf8 cps) = quoteLiteral (utf8 cps))
  /\ Earlier.quoteLiteral (bytes [0x61; 0xFF]) = bytes [0x27; 0x61; 0xFF; 0x27]
  /\ quoteLiteral (bytes [0x61; 0xFF]) = bytes [0x27; 0x61; 0xEF; 0xBF; 0xBD; 0x27].
Proof.
  split; [|split; reflexivity].
  intros cps H. rewrite quoteLiteral_runes. unfold range. rewrite range_utf8 by assumption.
  unfold Earlier.quoteLiteral, spec_quote.
  rewrite Contains_byte, has_byte_utf8 by (assumption || reflexivity).
  rewrite !Replace_byte by discriminate.
  rewrite replace_byte_utf8 by (assumption || reflexivity).
  rewrite replace_byte_utf8 by (reflexivity || now apply quotes_doubled_valid).
  rewrite doubled_in_two_steps.
  change (existsb (fun c : Z => c =? byte_val backslash) cps) with (existsb is_backslash cps).
  rewrite !utf8_app.
  change (utf8 [byte_val quote]) with (String quote EmptyString).
  destruct (existsb is_backslash cps); reflexivity.
Qed.

Lemma earlier_quoteLiteral_agrees_witness :
  Earlier.quoteLiteral (utf8 [0x69; 0x74; 0x27; 0x73; 0x20; 0xE9; 0x5C; 0x20AC; 0x1F600])
  = quoteLiteral (utf8 [0x69; 0x74; 0x27; 0x73; 0x20; 0xE9; 0x5C; 0x20AC; 0x1F600]).
Proof.
  apply (proj1 earlier_quoteLiteral_agrees). repeat constructor.
Defined.

(** ** Errors of the value encoder *)

(** Induction on a value, through the elements of a list parameter. *)
Lemma any_nested_ind (P : any -> Prop) :
  (forall v,
     match v with
     | CommaListParam (Some vs) => Forall P vs
     | _ => True
     end -> P v) ->
  forall v, P v.
Proof.
  intros H. fix IH 1. intros v. apply H.
  destruct v as [| | | | | | | | | | | | | [vs|] |]; try exact I.
  induction vs as [|a vs IHvs]; constructor; [apply IH | apply IHvs].
Qed.

Lemma toDbValue_elements_errors (vs : list any) :
  Forall (fun v => snd (toDbValue v) = errorString <$> head (marshal_errors v)) vs ->
  forall e : list string,
    snd (toDbValue_elements toDbValue vs e)
    = errorString <$> head (flat_map marshal_errors vs).
Proof.
  induction 1 as [|v vs Hv H IH]; intros e; cbn [toDbValue_elements flat_map]; [reflexivity|].
  destruct (toDbValue v) as [text [err|]]; cbn [snd] in Hv.
  - destruct (marshal_errors v) as [|msg rest]; [discriminate|].
    cbn [app head fmap option_fmap option_map] in *. exact Hv.
  - destruct (marshal_errors v) as [|msg rest]; [|discriminate].
    cbn [app]. apply IH.
Qed.

(** X8: [toDbValue] fails only on a value that [json.Marshal]
    refuses: on a JSON value, or on a list parameter that holds one,
    however deep.  The error is the one of the first such value in the
    order of the elements, and the text returned with an error is
    empty.  No string, number, bool, decimal, timestamp or nil value
    makes it fail. *)
Theorem toDbValue_fails_on_json_only (v : any) :
  snd (toDbValue v) = errorString <$> head (marshal_errors v)
  /\ (snd (toDbValue v) <> None -> fst (toDbValue v) = EmptyString).
Proof.
  split.
  - induction v as [v IH] using any_nested_ind.
    destruct v as [|[s|]|s|[n|]|n|[f|]|f|[b|]|b|[d|]|d|[t|]|t|[vs|]|o]; try reflexivity.
    + cbn [toDbValue marshal_errors].
      rewrite <- (toDbValue_elements_errors vs IH []).
      destruct (toDbValue_elements toDbValue vs []) as [e [err|]]; reflexivity.
    + cbn [toDbValue marshal_errors].
      destruct (json_Marshal o) as [encoded|msg]; [|reflexivity].
      destruct (_ || _); reflexivity.
  - destruct v as [|[s|]|s|[n|]|n|[f|]|f|[b|]|b|[d|]|d|[t|]|t|[vs|]|o];
      try (intros H; now contradiction H).
    + cbn [toDbValue]. destruct (toDbValue_elements toDbValue vs []) as [e [err|]];
        [reflexivity | intros H; now contradiction H].
    + cbn [toDbValue]. destruct (json_Marshal o) as [encoded|msg]; [|reflexivity].
      destruct (_ || _); intros H; now contradiction H.
Qed.

(** ** Calls of the statement executor *)

Lemma calls_bind {A B} (answer : forall X, call X -> X) (p : prog A) (k : A -> prog B) :
  calls answer (p ≫= k)
  = (calls answer p
     ++ match run_answers answer p with
        | Some a => calls answer (k a)
        | None => []
        end)%list.
Proof.
  induction p as [a|X c k' IH|]; cbn; [reflexivity| |reflexivity].
  f_equal. apply IH.
Qed.

(** X9: an operation of the executor whose template renders makes
    exactly one call to the connection: the call of [Queryable] it is
    named after, on the handle and with the context the caller gave,
    and with the text [qprintf] rendered.  It prepares no statement
    and opens no transaction. *)
Theorem executor_makes_one_call (json_Unmarshal : string -> option error)
    (answer : forall X, call X -> X)
    (ctx : Context) (db : Queryable) (sql : string) (params : Params) (query : string) :
  qprintf sql params = Done (query, None) ->
  calls answer (Exec ctx db sql params) = [Event (ExecContext db ctx query)]
  /\ calls answer (Query ctx db sql params) = [Event (QueryContext db ctx query)]
  /\ calls answer (QueryRow ctx db sql params) = [Event (QueryRowContext db ctx query)]
  /\ calls answer (QueryRowAndScan ctx db sql params)
     = [Event (QueryRowContext db ctx query)]
  /\ calls answer (QueryJSONRowIntoStruct json_Unmarshal ctx db sql params)
     = [Event (QueryRowContext db ctx query)]
  /\ calls answer (QueryRowIntoStruct ctx db sql params)
     = [Event (QueryContext db ctx query)]
  /\ calls answer (QueryRowsIntoSlice ctx db sql params)
     = [Event (QueryContext db ctx query)].
Proof.
  intros H.
  assert (calls answer (Exec ctx db sql params) = [Event (ExecContext db ctx query)]) as HExec.
  { unfold Exec. rewrite H. cbn.
    destruct (answer _ (ExecContext db ctx query)) as [res [e|]]; reflexivity. }
  assert (calls answer (Query ctx db sql params) = [Event (QueryContext db ctx query)])
    as HQuery.
  { unfold Query. rewrite H. cbn.
    destruct (answer _ (QueryContext db ctx query)) as [rows [e|]]; reflexivity. }
  assert (calls answer (QueryRow ctx db sql params) = [Event (QueryRowContext db ctx query)])
    as HRow by (unfold QueryRow; rewrite H; reflexivity).
  assert (run_answers answer (QueryRow ctx db sql params)
          = Some (Some (answer _ (QueryRowContext db ctx query)), None)) as HRowR
    by (unfold QueryRow; rewrite H; reflexivity).
  assert (run_answers answer (Query ctx db sql params)
          = Some (match answer _ (QueryContext db ctx query) with
                  | (_, Some e) => (None, Some (Error_ e sql params))
                  | (rows, None) => (rows, None)
                  end)) as HQueryR.
  { unfold Query. rewrite H. cbn.
    destruct (answer _ (QueryContext db ctx query)) as [rows [e|]]; reflexivity. }
  repeat match goal with |- _ /\ _ => split end; try assumption.
  - unfold QueryRowAndScan. rewrite calls_bind, HRow, HRowR. cbn.
    destruct (Scan_err _) as [e|]; [destruct (is_ErrNoRows e)|]; reflexivity.
  - unfold QueryJSONRowIntoStruct. rewrite calls_bind, HRow, HRowR. cbn.
    destruct (Scan_err _) as [e|]; [destruct (is_ErrNoRows e); reflexivity|].
    destruct (json_Unmarshal _); reflexivity.
  - unfold QueryRowIntoStruct. rewrite calls_bind, HQuery, HQueryR.
    destruct (answer _ (QueryContext db ctx query)) as [[rows|] [e|]]; cbn; try reflexivity.
    destruct (pending rows) as [|r rest]; [reflexivity|].
    destruct (sqlstruct_err r); reflexivity.
  - unfold QueryRowsIntoSlice. rewrite calls_bind, HQuery, HQueryR.
    destruct (answer _ (QueryContext db ctx query)) as [[rows|] [e|]]; reflexivity.
Qed.

Lemma executor_makes_one_call_witness :
  calls answer_ErrNoRows
    (Exec (WithCancel Background 1) sql_Tx "DELETE FROM t WHERE id = :id" {[ "id" := Int 7 ]})
  = [Event (ExecContext sql_Tx (WithCancel Background 1) "DELETE FROM t WHERE id = 7")].
Proof.
  apply (executor_makes_one_call (fun _ => None) answer_ErrNoRows
           (WithCancel Background 1) sql_Tx "DELETE FROM t WHERE id = :id"
           {[ "id" := Int 7 ]} "DELETE FROM t WHERE id = 7").
  reflexivity.
Defined.

Lemma QueryRowsIntoSlice_loop_all (sql : string) (params : Params) (rs : list RawRow) :
  Forall (fun r => sqlstruct_err r = None) rs ->
  forall v : list string,
    QueryRowsIntoSlice_loop sql params rs v = (Some (v ++ map sqlstruct_elem rs)%list, None).
Proof.
  induction 1 as [|r rs Hr H IH]; intros v; cbn [QueryRowsIntoSlice_loop map].
  - now rewrite List.app_nil_r.
  - rewrite Hr, IH, <- List.app_assoc. reflexivity.
Qed.

(** X10: [QueryRowsIntoSlice] returns one element for each row of
    the result set, in the order of the rows, when every row is mapped
    without an error; a result set without rows gives an empty slice
    and no error.  It never reads [rows.Err()]: when the iteration
    stopped on an error, the rows read so far are returned as if they
    were all, without an error. *)
Theorem QueryRowsIntoSlice_collects_rows (answer : forall X, call X -> X)
    (ctx : Context) (db : Queryable) (sql : string) (params : Params) (query : string)
    (rs : list RawRow) (iteration_error : option error) :
  qprintf sql params = Done (query, None) ->
  answer _ (QueryContext db ctx query)
  = (Some {| pending := rs; Err := iteration_error |}, None) ->
  Forall (fun r => sqlstruct_err r = None) rs ->
  run_answers answer (QueryRowsIntoSlice ctx db sql params)
  = Some (Some (map sqlstruct_elem rs), None).
Proof.
  intros H Hanswer Hrows.
  destruct (rows_operations answer ctx db sql params query H) as [_ ->].
  rewrite Hanswer. cbn [pending].
  now rewrite QueryRowsIntoSlice_loop_all.
Qed.

Lemma QueryRowsIntoSlice_collects_rows_witness :
  run_answers
    (answer_rows {| pending := [ {| sqlstruct_err := None; sqlstruct_elem := "first" |};
                                 {| sqlstruct_err := None; sqlstruct_elem := "second" |} ];
                    Err := Some (errorString "driver: bad connection") |})
    (QueryRowsIntoSlice Background sql_DB "SELECT * FROM t WHERE a > :a" {[ "a" := Int 0 ]})
  = Some (Some ["first"; "second"], None).
Proof.
  apply (QueryRowsIntoSlice_collects_rows _ Background sql_DB
           "SELECT * FROM t WHERE a > :a" {[ "a" := Int 0 ]} "SELECT * FROM t WHERE a > 0"
           [ {| sqlstruct_err := None; sqlstruct_elem := "first" |};
             {| sqlstruct_err := None; sqlstruct_elem := "second" |} ]
           (Some (errorString "driver: bad connection"))).
  - reflexivity.
  - reflexivity.
  - repeat constructor.
Defined.

(** X11: [QueryRowIntoStruct] reads the first row of the result set
    only: when it is mapped without an error the operation returns no
    error, whatever rows follow.  It never reads [rows.Err()]: when
    there is no row to read because the iteration failed, it returns
    [sql.ErrNoRows] as for an empty result set. *)
Theorem QueryRowIntoStruct_reads_first_row (answer : forall X, call X -> X)
    (ctx : Context) (db : Queryable) (sql : string) (params : Params) (query : string) :
  qprintf sql params = Done (query, None) ->
  (forall (r : RawRow) (rest : list RawRow) (iteration_error : option error),
     answer _ (QueryContext db ctx query)
     = (Some {| pending := r :: rest; Err := iteration_error |}, None) ->
     sqlstruct_err r = None ->
     run_answers answer (QueryRowIntoStruct ctx db sql params) = Some None)
  /\ (forall iteration_error : option error,
        answer _ (QueryContext db ctx query)
        = (Some {| pending := []; Err := iteration_error |}, None) ->
        run_answers answer (QueryRowIntoStruct ctx db sql params) = Some (Some ErrNoRows)).
Proof.
  intros H. destruct (rows_operations answer ctx db sql params query H) as [-> _].
  split.
  - intros r rest ie -> Hr. cbn [pending]. now rewrite Hr.
  - intros ie ->. reflexivity.
Qed.

Lemma QueryRowIntoStruct_reads_first_row_witness :
  run_answers
    (answer_rows {| pending := [ {| sqlstruct_err := None; sqlstruct_elem := "first" |};
                                 {| sqlstruct_err := Some (errorString "sqlstruct: bad row");
                                    sqlstruct_elem := EmptyString |} ];
                    Err := None |})
    (QueryRowIntoStruct Background sql_DB "SELECT * FROM t WHERE a > :a" {[ "a" := Int 0 ]})
  = Some None
  /\ run_answers
       (answer_rows {| pending := []; Err := Some (errorString "driver: bad connection") |})
       (QueryRowIntoStruct Background sql_DB "SELECT * FROM t WHERE a > :a" {[ "a" := Int 0 ]})
     = Some (Some ErrNoRows).
Proof.
  assert (qprintf "SELECT * FROM t WHERE a > :a" {[ "a" := Int 0 ]}
          = Done ("SELECT * FROM t WHERE a > 0", None)) as Hq by reflexivity.
  split.
  - eapply (proj1 (QueryRowIntoStruct_reads_first_row _ Background sql_DB _ _ _ Hq));
      reflexivity.
  - eapply (proj2 (QueryRowIntoStruct_reads_first_row _ Background sql_DB _ _ _ Hq));
      reflexivity.
Defined.

(** ** More on the migration runner *)

(** X12: when [db.Begin] fails, [Run] returns its error as it is; no
    migration body is executed, nothing is rolled back, and the
    connection is left as it was. *)
Theorem Run_returns_begin_error (ddl : string -> Database -> Database + error)
    (e : error) (commit_error : option error) (migrations : list Migration) (conn : Conn) :
  interp ddl (Some e) commit_error (Run migrations) conn = Some (Some e, conn).
Proof.
  unfold Run. rewrite interp_bind, getLatestVersion_reads.
  destruct (catalog (committed conn)) as [[|v rows]|]; reflexivity.
Qed.

(** What [Run] does once the loop has ended without an error, in the
    transaction [d]: the version update, the commit and the deferred
    rollback. *)
Lemma Run_finishes (ddl : string -> Database -> Database + error)
    (commit_error : option error) (tracker : Z) (conn1 : Conn) (d : Database) :
  transaction conn1 = Some d ->
  interp ddl None commit_error
    (returned ← (
       '(_, err') ← Exec Background sql_Tx "UPDATE migrations SET version = :latest"
                        {[ "latest" := Int tracker ]};
       if bool_decide (err' ≠ None) then Ret err' else
       _ ← perform Commit;
       Ret None);
     _ ← perform Rollback;
     Ret returned) conn1
  = match catalog d with
    | None =>
      Some (Some (Error_ relation_missing update_statement {[ "latest" := Int tracker ]}),
            rolled_back conn1)
    | Some rows =>
      if 2 <=? Z.of_nat (length rows) then
        Some (Some (Error_ duplicate_key update_statement {[ "latest" := Int tracker ]}),
              rolled_back conn1)
      else
        match commit_error with
        | Some _ => Some (None, rolled_back conn1)
        | None => Some (None, committed_with conn1 (version_set tracker d))
        end
    end.
Proof.
  intros Htx. rewrite Exec_update.
  cbn -[parse_update update_prefix Itoa String.append].
  rewrite Htx, parse_update_Itoa. unfold update_version, version_set.
  destruct (catalog d) as [rows|]; [|reflexivity].
  destruct (2 <=? Z.of_nat (length rows)); [reflexivity|].
  destruct commit_error; reflexivity.
Qed.

(** X13: [Run] drops the error of [tx.Commit]: when the loop and the
    version update went through and the commit fails, [Run] still
    returns no error, although nothing was committed: the committed
    database, and the persisted version with it, are as before the
    run. *)
Theorem Run_ignores_commit_error (ddl : string -> Database -> Database + error)
    (e : error) (migrations : list Migration) (conn : Conn)
    (tracker : Z) (conn1 : Conn) (d : Database) (rows : list Z) :
  transaction conn = None ->
  interp ddl None (Some e) (Run_loop migrations (persisted_version conn) None) (begun conn)
  = Some ((tracker, None), conn1) ->
  transaction conn1 = Some d ->
  catalog d = Some rows ->
  (length rows < 2)%nat ->
  interp ddl None (Some e) (Run migrations) conn = Some (None, rolled_back conn1)
  /\ committed (rolled_back conn1) = committed conn
  /\ persisted_version (rolled_back conn1) = persisted_version conn.
Proof.
  intros Htx Hloop Hd Hrows Hlen.
  assert (is_Some (transaction (begun conn))) as Hopen by (cbn; eauto).
  destruct (Run_loop_in_transaction ddl None (Some e) _ _ _ _ _ _ Hopen Hloop) as [Hc _].
  split; [|split].
  - rewrite Run_begins, Hloop by assumption.
    rewrite (Run_finishes ddl (Some e) tracker conn1 d Hd), Hrows.
    replace (2 <=? Z.of_nat (length rows)) with false by (symmetry; apply Z.leb_gt; lia).
    reflexivity.
  - exact Hc.
  - unfold persisted_version. cbn [rolled_back committed]. now rewrite Hc.
Qed.

Lemma Run_ignores_commit_error_witness :
  interp example_ddl None (Some (errorString "pq: could not serialize access"))
    (Run [create_table; add_column]) (fresh_conn empty_database)
  = Some (None,
          {| committed := empty_database; transaction := None;
             executed := [Sql create_table; Sql add_column] |}).
Proof.
  assert (interp example_ddl None (Some (errorString "pq: could not serialize access"))
            (Run_loop [create_table; add_column]
               (persisted_version (fresh_conn empty_database)) None)
            (begun (fresh_conn empty_database))
          = Some ((2, None),
                  {| committed := empty_database;
                     transaction := Some {| catalog := Some [1];
                                            schema := [Sql create_table; Sql add_column] |};
                     executed := [Sql create_table; Sql add_column] |})) as Hloop
    by reflexivity.
  destruct (Run_ignores_commit_error example_ddl _ _ (fresh_conn empty_database) _ _
              {| catalog := Some [1]; schema := [Sql create_table; Sql add_column] |} [1]
              eq_refl Hloop eq_refl eq_refl ltac:(cbn; lia)) as [H _].
  exact H.
Defined.

Section Loop_invariants.
Variable ddl : string -> Database -> Database + error.
Variable begin_error commit_error : option error.

(** X14: whatever the order of the list, the bodies the loop of [Run]
    hands to the connection are those of migrations picked from the
    list in its order, with strictly increasing versions, all above
    the version the loop started from: no body at or below the
    starting version is executed, and none after a higher version was. *)
Theorem Run_loop_executes_ascending (migrations : list Migration) :
  forall (latest : Z) (conn conn' : Conn) (r : Z * option error),
    is_Some (transaction conn) ->
    interp ddl begin_error commit_error (Run_loop migrations latest None) conn
    = Some (r, conn') ->
    exists applied : list Migration,
      sublist applied migrations
      /\ executed conn' = (executed conn ++ map Sql applied)%list
      /\ StronglySorted Z.lt (latest :: map Version applied).
Proof.
  induction migrations as [|m rest IH]; intros latest conn conn' r Htx H.
  - cbn in H. injection H as <- <-. exists []. split; [constructor|].
    split; [now rewrite List.app_nil_r | repeat constructor].
  - destruct (Z.le_gt_cases (Version m) latest) as [Hle|Hgt].
    + rewrite Run_loop_skip in H by assumption.
      destruct (IH _ _ _ _ Htx H) as (applied & Hsub & Hex & Hs).
      exists applied. split; [now apply sublist_cons | now split].
    + destruct Htx as [d Hd]. destruct (ddl (Sql m) d) as [d'|e] eqn:Hddl.
      * rewrite (Run_loop_applies ddl _ _ m rest latest conn d d') in H by (assumption || lia).
        assert (is_Some (transaction (after_exec conn (Sql m) d'))) as Htx' by (cbn; eauto).
        destruct (IH _ _ _ _ Htx' H) as (applied & Hsub & Hex & Hs).
        exists (m :: applied). split; [now apply sublist_skip|].
        split; [rewrite Hex; cbn; now rewrite <- List.app_assoc|].
        cbn [map]. constructor; [assumption|].
        apply StronglySorted_inv in Hs as [_ Hall].
        constructor; [lia|]. eapply Forall_impl; [exact Hall|]. cbn. intros; lia.
      * rewrite (Run_loop_fails ddl _ _ m rest latest conn d e) in H by (assumption || lia).
        injection H as <- <-. exists [m]. split.
        -- apply sublist_skip, sublist_nil_l.
        -- split; [reflexivity|]. cbn [map]. repeat constructor. lia.
Qed.




End Loop_invariants.

Lemma Run_loop_executes_ascending_witness :
  exists applied : list Migration,
    sublist applied [create_table; add_index; add_column]
    /\ executed {| committed := empty_database;
                   transaction := Some {| catalog := Some [1];
                                          schema := [Sql create_table; Sql add_index] |};
                   executed := [Sql create_table; Sql add_index] |}
       = (executed (begun (fresh_conn empty_database)) ++ map Sql applied)%list
    /\ StronglySorted Z.lt (0 :: map Version applied).
Proof.
  apply (Run_loop_executes_ascending example_ddl None None
           [create_table; add_index; add_column] 0 (begun (fresh_conn empty_database))
           _ (5, None)).
  - cbn. eauto.
  - reflexivity.
Defined.









(** X18: when the catalog table is still missing after the loop (no
    migration of the list has created it, or the list is empty),
    [Run] fails at the version update: it returns the error of the
    database wrapped with the statement and the tracker, and the
    bodies it executed are rolled back with the transaction. *)
Theorem Run_fails_without_catalog (ddl : string -> Database -> Database + error)
    (commit_error : option error) (migrations : list Migration) (conn : Conn)
    (tracker : Z) (conn1 : Conn) (d : Database) :
  transaction conn = None ->
  interp ddl None commit_error (Run_loop migrations (persisted_version conn) None)
    (begun conn)
  = Some ((tracker, None), conn1) ->
  transaction conn1 = Some d ->
  catalog d = None ->
  interp ddl None commit_error (Run migrations) conn
  = Some (Some (Error_ relation_missing update_statement {[ "latest" := Int tracker ]}),
          rolled_back conn1)
  /\ committed (rolled_back conn1) = committed conn.
Proof.
  intros Htx Hloop Hd Hcat.
  assert (is_Some (transaction (begun conn))) as Hopen by (cbn; eauto).
  destruct (Run_loop_in_transaction ddl None commit_error _ _ _ _ _ _ Hopen Hloop) as [Hc _].
  split; [|exact Hc].
  rewrite Run_begins, Hloop by assumption.
  now rewrite (Run_finishes ddl commit_error tracker conn1 d Hd), Hcat.
Qed.

Lemma Run_fails_without_catalog_witness :
  interp example_ddl None None (Run []) (fresh_conn empty_database)
  = Some (Some (Error_ relation_missing update_statement {[ "latest" := Int 0 ]}),
          fresh_conn empty_database)
  /\ interp example_ddl None None (Run [add_column]) (fresh_conn empty_database)
     = Some (Some (Error_ relation_missing update_statement {[ "latest" := Int 2 ]}),
             {| committed := empty_database; transaction := None;
                executed := [Sql add_column] |}).
Proof.
  split.
  - apply (Run_fails_without_catalog example_ddl None [] (fresh_conn empty_database) 0
             (begun (fresh_conn empty_database)) empty_database); reflexivity.
  - apply (Run_fails_without_catalog example_ddl None [add_column]
             (fresh_conn empty_database) 2
             {| committed := empty_database;
                transaction := Some {| catalog := None; schema := [Sql add_column] |};
                executed := [Sql add_column] |}
             {| catalog := None; schema := [Sql add_column] |}); reflexivity.
Defined.

(** X19: [Run] never looks at the result of the version update.  On a
    catalog table without a row the update changes nothing, yet [Run]
    commits and returns no error: the bodies are applied, no version
    is recorded, and the persisted version reads 0 afterwards. *)
Theorem Run_records_nothing_without_row (ddl : string -> Database -> Database + error)
    (migrations : list Migration) (conn : Conn)
    (tracker : Z) (conn1 : Conn) (d : Database) :
  transaction conn = None ->
  interp ddl None None (Run_loop migrations (persisted_version conn) None) (begun conn)
  = Some ((tracker, None), conn1) ->
  transaction conn1 = Some d ->
  catalog d = Some [] ->
  interp ddl None None (Run migrations) conn = Some (None, committed_with conn1 d)
  /\ persisted_version (committed_with conn1 d) = 0.
Proof.
  intros Htx Hloop Hd Hcat. split.
  - rewrite Run_begins, Hloop by assumption.
    rewrite (Run_finishes ddl None tracker conn1 d Hd), Hcat. cbn.
    do 3 f_equal. unfold version_set. rewrite Hcat. destruct d. cbn in *. now subst.
  - unfold persisted_version. cbn. now rewrite Hcat.
Qed.

Lemma Run_records_nothing_without_row_witness :
  interp example_ddl None None (Run [add_column]) catalog_without_row
  = Some (None,
          {| committed := {| catalog := Some []; schema := [Sql add_column] |};
             transaction := None; executed := [Sql add_column] |}).
Proof.
  apply (Run_records_nothing_without_row example_ddl [add_column] catalog_without_row 2
           {| committed := {| catalog := Some []; schema := [] |};
              transaction := Some {| catalog := Some []; schema := [Sql add_column] |};
              executed := [Sql add_column] |}
           {| catalog := Some []; schema := [Sql add_column] |}); reflexivity.
Defined.

Lemma run_answers_bind {A B} (answer : forall X, call X -> X) (p : prog A) (k : A -> prog B) :
  run_answers answer (p ≫= k)
  = match run_answers answer p with
    | Some a => run_answers answer (k a)
    | None => None
    end.
Proof.
  induction p as [a|X c k' IH|]; cbn; [reflexivity| |reflexivity]. apply IH.
Qed.

(** X20: how [Run] reads the persisted version.  When the version
    query fails with an error that is neither [sql.ErrNoRows] nor has
    the word migrations in its message, [Run] returns that error as it
    is and makes no other call: no transaction is begun.  Every other
    error of the query is taken for a database without a version: the
    version is 0 and [Run] goes on to begin the transaction; so is an
    error such as a denied permission on the table migrations. *)
Theorem Run_version_query_error (answer : forall X, call X -> X)
    (migrations : list Migration) (e : error) :
  Scan_err (answer _ (QueryRow_ sql_DB version_query)) = Some e ->
  (is_ErrNoRows e = false -> Contains (Error_Error e) "migrations" = false ->
   run_answers answer (Run migrations) = Some (Some e)
   /\ calls answer (Run migrations) = [Event (QueryRow_ sql_DB version_query)])
  /\ (is_ErrNoRows e = true \/ Contains (Error_Error e) "migrations" = true ->
      run_answers answer getLatestVersion = Some (0, None)
      /\ exists rest : list event,
           calls answer (Run migrations)
           = Event (QueryRow_ sql_DB version_query) :: Event Begin :: rest).
Proof.
  intros He.
  assert (run_answers answer getLatestVersion
          = Some (if negb (is_ErrNoRows e) && negb (Contains (Error_Error e) "migrations")
                  then (0, Some e) else (0, None))) as Hget.
  { unfold getLatestVersion. cbn [perform mbind prog_mbind prog_bind run_answers].
    unfold version_query in He. rewrite He. cbn [bool_decide decide_rel].
    destruct (negb (is_ErrNoRows e) && negb (Contains (Error_Error e) "migrations"));
      reflexivity. }
  assert (calls answer getLatestVersion = [Event (QueryRow_ sql_DB version_query)]) as Hcalls.
  { unfold getLatestVersion. cbn [perform mbind prog_mbind prog_bind calls].
    unfold version_query in He. rewrite He.
    destruct (negb (is_ErrNoRows e) && negb (Contains (Error_Error e) "migrations"));
      reflexivity. }
  split.
  - intros H1 H2. rewrite H1, H2 in Hget. cbn [negb andb] in Hget.
    unfold Run. rewrite run_answers_bind, calls_bind, Hget, Hcalls. split; reflexivity.
  - intros H.
    assert (negb (is_ErrNoRows e) && negb (Contains (Error_Error e) "migrations") = false)
      as Hswallow by (destruct H as [-> | ->]; [reflexivity | apply andb_false_r]).
    rewrite Hswallow in Hget. split; [exact Hget|].
    unfold Run. rewrite calls_bind, Hget, Hcalls. cbn. eauto.
Qed.

Lemma Run_version_query_error_witness :
  run_answers (answer_scan_error (errorString "pq: password authentication failed"))
    (Run [create_table])
  = Some (Some (errorString "pq: password authentication failed"))
  /\ run_answers
       (answer_scan_error (errorString "pq: permission denied for table migrations"))
       getLatestVersion
     = Some (0, None).
Proof.
  split.
  - apply (Run_version_query_error
             (answer_scan_error (errorString "pq: password authentication failed"))
             [create_table] (errorString "pq: password authentication failed") eq_refl);
      reflexivity.
  - apply (Run_version_query_error
             (answer_scan_error (errorString "pq: permission denied for table migrations"))
             [create_table] (errorString "pq: permission denied for table migrations")
             eq_refl).
    right. reflexivity.
Defined.

(** ** The calls of the migration runner *)





(** ** Numbers below zero *)

(** X23: an int below zero is rendered with its minus sign and
    nothing around it: [toDbValue] returns [strconv.Itoa] of the value
    as it is, a minus sign and the decimal digits of its absolute
    value.  In a template where the placeholder follows a minus sign,
    the text holds two minus signs in a row, which SQL reads as the
    start of a comment. *)
Theorem negative_int_keeps_its_sign (n : Z) :
  is_int n -> n < 0 ->
  toDbValue (Int n)
  = ("-" ++ NilZero.string_of_uint (N.to_uint (Z.abs_N n)), None)
  /\ qprintf "SELECT 1-:n" {[ "n" := Int n ]}
     = Done ("SELECT 1--" ++ NilZero.string_of_uint (N.to_uint (Z.abs_N n)), None).
Proof.
  intros _ H. destruct n as [|p|p]; try lia.
  assert (toDbValue (Int (Z.neg p))
          = ("-" ++ NilZero.string_of_uint (N.to_uint (Z.abs_N (Z.neg p))), None))
    as Hn by reflexivity.
  split; [exact Hn|].
  rewrite qprintf_scan.
  change (scan "SELECT 1-:n" 0) with (lits "SELECT 1-" ++ [Placeholder "n"])%list.
  rewrite render_lits. cbn [render]. rewrite lookup_singleton.
  cbn. reflexivity.
Qed.

Lemma negative_int_keeps_its_sign_witness :
  toDbValue (Int (- 2 ^ 63)) = ("-9223372036854775808", None)
  /\ qprintf "SELECT 1-:n" {[ "n" := Int (- 2 ^ 63) ]}
     = Done ("SELECT 1--9223372036854775808", None).
Proof.
  apply (negative_int_keeps_its_sign (- 2 ^ 63)).
  - unfold is_int. lia.
  - lia.
Defined.
